(** * Canjes por escalas: the allocation and reconciliation core of [Apps.js]

    The development embeds [SCALES], [round2] and the body of [useCanjes]
    (the function passed to [useMemo]) and proves the properties of the
    greedy tier allocation and of the reconciliation rows.

    Number model.  A JavaScript number is modelled by [number]: [NaN], the
    two infinities, or a finite value held as a rational.  The special
    values follow the language (NaN propagates, Infinity - Infinity is NaN,
    every comparison with NaN is false).  Two arithmetics are given on the
    finite values.  Module [JS] computes exactly.  Module [B64] rounds the
    exact result of every addition, subtraction, multiplication and division
    to binary64 (53 significant bits, round to nearest with ties to even,
    gradual underflow, overflow to an infinity), which is what the program
    computes; [Math.floor], [Math.round], [Math.abs] and the comparisons are
    exact in both.  The theorems named [b64_...] are about the program in
    binary64.  The sign of zero is outside the model (no divisor of the
    program can be zero: the divisors are the tier sizes, a positive
    [planchas], a positive [count] and 100). *)

From Stdlib Require Import QArith Qround Qabs Qpower ZArith List String Ascii Bool Lia Lqa.
From Stdlib Require Qcanon.
Import ListNotations.

Open Scope Q_scope.

(** ** JavaScript numbers *)

Module JS.

Inductive number : Type :=
| NaN : number
| PosInf : number
| NegInf : number
| Fin : Q -> number.

Definition of_Z (z : Z) : number := Fin (inject_Z z).

Definition zero : number := Fin 0.

(** Sign of a finite value, zero counting as positive zero. *)
Definition Qneg (q : Q) : bool := negb (Qle_bool 0 q).
Definition Qzero (q : Q) : bool := Qeq_bool q 0.

Definition inf (negative : bool) : number :=
  if negative then NegInf else PosInf.

Definition add (a b : number) : number :=
  match a, b with
  | NaN, _ | _, NaN => NaN
  | PosInf, NegInf | NegInf, PosInf => NaN
  | PosInf, _ | _, PosInf => PosInf
  | NegInf, _ | _, NegInf => NegInf
  | Fin x, Fin y => Fin (Qred (x + y))
  end.

Definition sub (a b : number) : number :=
  match a, b with
  | NaN, _ | _, NaN => NaN
  | PosInf, PosInf | NegInf, NegInf => NaN
  | PosInf, _ | _, NegInf => PosInf
  | NegInf, _ | _, PosInf => NegInf
  | Fin x, Fin y => Fin (Qred (x - y))
  end.

Definition mul (a b : number) : number :=
  match a, b with
  | NaN, _ | _, NaN => NaN
  | PosInf, PosInf | NegInf, NegInf => PosInf
  | PosInf, NegInf | NegInf, PosInf => NegInf
  | PosInf, Fin y | Fin y, PosInf =>
      if Qzero y then NaN else inf (Qneg y)
  | NegInf, Fin y | Fin y, NegInf =>
      if Qzero y then NaN else inf (negb (Qneg y))
  | Fin x, Fin y => Fin (Qred (x * y))
  end.

Definition div (a b : number) : number :=
  match a, b with
  | NaN, _ | _, NaN => NaN
  | PosInf, PosInf | PosInf, NegInf | NegInf, PosInf | NegInf, NegInf => NaN
  | PosInf, Fin y => inf (Qneg y)
  | NegInf, Fin y => inf (negb (Qneg y))
  | Fin _, PosInf | Fin _, NegInf => zero
  | Fin x, Fin y =>
      if Qzero y
      then (if Qzero x then NaN else inf (Qneg x))
      else Fin (Qred (x / y))
  end.

(** [a < b], [a <= b], [a > b] and [a === b] on numbers. *)
Definition lt (a b : number) : bool :=
  match a, b with
  | NaN, _ | _, NaN => false
  | PosInf, _ => false
  | _, PosInf => true
  | _, NegInf => false
  | NegInf, _ => true
  | Fin x, Fin y => negb (Qle_bool y x)
  end.

Definition le (a b : number) : bool :=
  match a, b with
  | NaN, _ | _, NaN => false
  | _, PosInf => true
  | PosInf, _ => false
  | NegInf, _ => true
  | _, NegInf => false
  | Fin x, Fin y => Qle_bool x y
  end.

Definition gt (a b : number) : bool := lt b a.

Definition seq (a b : number) : bool :=
  match a, b with
  | PosInf, PosInf | NegInf, NegInf => true
  | Fin x, Fin y => Qeq_bool x y
  | _, _ => false
  end.

(** Truthiness of a number: only NaN and zero are falsy. *)
Definition truthy (a : number) : bool :=
  match a with
  | NaN => false
  | Fin x => negb (Qzero x)
  | _ => true
  end.

(** [a || b] on numbers. *)
Definition or (a b : number) : number := if truthy a then a else b.

(** [Math.floor] and [Math.round] (a tie rounds towards +Infinity). *)
Definition Math_floor (a : number) : number :=
  match a with
  | Fin x => of_Z (Qfloor x)
  | _ => a
  end.

Definition Math_round (a : number) : number :=
  match a with
  | Fin x => of_Z (Qfloor (x + (1 # 2)))
  | _ => a
  end.

Definition Math_abs (a : number) : number :=
  match a with
  | Fin x => Fin (Qabs x)
  | NegInf => PosInf
  | _ => a
  end.

(** [Number(v)] applied to a value that is a number already. *)
Definition Number (a : number) : number := a.

End JS.

Import JS.

Declare Scope num_scope.
Delimit Scope num_scope with num.
Bind Scope num_scope with number.
Infix "+" := add : num_scope.
Infix "-" := sub : num_scope.
Infix "*" := mul : num_scope.
Infix "/" := div : num_scope.
Infix "<?" := lt (at level 70) : num_scope.
Infix "<=?" := le (at level 70) : num_scope.
Infix ">?" := gt (at level 70) : num_scope.
Infix "===" := seq (at level 70) : num_scope.
Infix "||" := or : num_scope.
Coercion of_Z : Z >-> number.

(** ** The tiers and the records of the program *)

Record scale : Type := mkScale {
  id : Z;
  name : string;
  size : number;
  weight : number
}.

Definition SCALES : list scale :=
  [ mkScale 3 "Escala 3" 50%Z 12%Z;
    mkScale 2 "Escala 2" 35%Z 6%Z;
    mkScale 1 "Escala 1" 10%Z 1%Z ].

(** An element of [premios]: the fields of a scale and its [count]. *)
Record premio : Type := mkPremio {
  p_id : Z;
  p_name : string;
  p_size : number;
  p_weight : number;
  p_count : number
}.

(** [{ ...s, count: c }] *)
Definition with_count (s : scale) (c : number) : premio :=
  mkPremio (id s) (name s) (size s) (weight s) c.

(** [s.count = c] *)
Definition set_count (p : premio) (c : number) : premio :=
  mkPremio (p_id p) (p_name p) (p_size p) (p_weight p) c.

Record row : Type := mkRow {
  label : string;
  repetir : number;
  planchasPorRep : number;
  montoPorRep : number
}.

Record totals : Type := mkTotals {
  t_planchas : number;
  t_monto : number;
  t_premios : number
}.

Record result : Type := mkResult {
  unitPrice : number;
  premios : list premio;
  aplicativoRows : list row;
  totales : totals
}.

(** ** [round2] *)

Definition round2 (n : number) : number :=
  (Math_round ((Number n || 0%Z) * 100%Z) / 100%Z)%num.

(** ** The body of [useCanjes] *)

(** The allocation loop (lines 49-54): every element receives
    [floor(remaining / size)] and [remaining] loses that many whole tiers.
    It returns the updated array and the final [remaining]. *)
Fixpoint allocLoop (ps : list premio) (remaining : number)
  : list premio * number :=
  match ps with
  | [] => ([], remaining)
  | s :: rest =>
      let count := Math_floor (remaining / p_size s)%num in
      let remaining' := (remaining - count * p_size s)%num in
      let (rest', final) := allocLoop rest remaining' in
      (set_count s count :: rest', final)
  end.

(** Lines 46-54: [premios] is [SCALES] with every count at 0, then the loop. *)
Definition allocate (planchas : number) : list premio * number :=
  allocLoop (map (fun s => with_count s 0%Z) SCALES) planchas.

(** Line 56: [premios.reduce((acc, s) => acc + s.count * s.weight, 0)]. *)
Definition totalPremios (ps : list premio) : number :=
  fold_left (fun acc s => (acc + p_count s * p_weight s)%num) ps (0%Z : number).

(** Line 57: [premios.some((p) => p.count > 0)]. *)
Definition anyCount (ps : list premio) : bool :=
  existsb (fun p => (p_count p >? 0%Z)%num) ps.

(** Lines 73-76: the index of the last element with a positive count,
    -1 when there is none. *)
Fixpoint lastIdxLoop (ps : list premio) (i lastIdx : Z) : Z :=
  match ps with
  | [] => lastIdx
  | p :: rest =>
      lastIdxLoop rest (i + 1)%Z
        (if (p_count p >? 0%Z)%num then i else lastIdx)
  end.

Definition findLastIdx (ps : list premio) : Z := lastIdxLoop ps 0%Z (-1)%Z.

(** Lines 78-90: the [forEach] that pushes one row per element whose count
    is not 0; the anchor row absorbs a positive [remaining]. *)
Fixpoint pushRows (ps : list premio) (idx lastIdx : Z)
    (remaining uPrice : number) (rows : list row) : list row :=
  match ps with
  | [] => rows
  | p :: rest =>
      let rows' :=
        if (p_count p === 0%Z)%num then rows
        else
          let planchasPorRep :=
            if (idx =? lastIdx)%Z && (remaining >? 0%Z)%num
            then (p_size p + remaining / p_count p)%num
            else p_size p in
          rows ++ [ mkRow (p_name p) (p_count p) planchasPorRep
                          (planchasPorRep * uPrice)%num ]
      in
      pushRows rest (idx + 1)%Z lastIdx remaining uPrice rows'
  end.

(** Lines 59-91: the reconciliation rows. *)
Definition buildRows (planchas uPrice : number) (ps : list premio)
    (remaining : number) : list row :=
  if negb (anyCount ps) then
    [ mkRow "Escala 1" 1%Z planchas (planchas * uPrice)%num ]
  else
    pushRows ps 0%Z (findLastIdx ps) remaining uPrice [].

(** Lines 94-101: the control totals before rounding, as the pair
    [(acc.planchas, acc.monto)]. *)
Definition controlTotals (rows : list row) : number * number :=
  fold_left
    (fun acc r =>
       ((fst acc + planchasPorRep r * repetir r)%num,
        (snd acc + montoPorRep r * repetir r)%num))
    rows ((0%Z : number), (0%Z : number)).

(** The result returned on the guard of line 34. *)
Definition emptyResult : result :=
  mkResult 0%Z [] [] (mkTotals 0%Z 0%Z 0%Z).

Definition useCanjes (planchasInput montoInput : number) : result :=
  let planchas := (Number planchasInput || 0%Z)%num in
  let monto := (Number montoInput || 0%Z)%num in
  if (planchas <=? 0%Z)%num || (monto <? 0%Z)%num then emptyResult
  else
    let uPrice := (monto / planchas)%num in
    let (ps, remaining) := allocate planchas in
    let rows := buildRows planchas uPrice ps remaining in
    let tot := controlTotals rows in
    mkResult uPrice ps rows
      (mkTotals (round2 (fst tot)) (round2 (snd tot)) (totalPremios ps)).

(** The two checks of [App] (lines 122-125) behind the badges
    "Planchas cuadran" and "Monto cuadra"; [tolerance] is their 0.01. *)
Definition tolerance : number := Fin (1 # 100).

Definition matchPlanchas (planchas : number) (r : result) : bool :=
  (Math_abs ((Number planchas || 0%Z) - (t_planchas (totales r) || 0%Z))
     <? tolerance)%num.

Definition matchMonto (monto : number) (r : result) : bool :=
  (Math_abs ((Number monto || 0%Z) - (t_monto (totales r) || 0%Z))
     <? tolerance)%num.

(** ** Definitions of the specification *)

(** The definitions below are not code of the program: they state what the
    theorems say about it. *)

(** [a] is finite and holds a rational equal to [x]. *)
Definition holds (a : number) (x : Q) : Prop :=
  exists y, a = Fin y /\ y == x.

(** What one tier takes from [x] and what it leaves, in exact arithmetic. *)
Definition awardedAt (x : Q) (s : Z) : Z := Qfloor (x / inject_Z s).
Definition leftAt (x : Q) (s : Z) : Q :=
  x - inject_Z (awardedAt x s) * inject_Z s.

(** A tier table whose sizes are positive integers. *)
Definition sized (ps : list premio) : Prop :=
  Forall (fun p => exists s, p_size p = of_Z s /\ (0 < s)%Z) ps.

(** The units the awarded tiers account for: sum of [count * size]. *)
Fixpoint awarded (ps : list premio) : number :=
  match ps with
  | [] => 0%Z
  | p :: rest => (p_count p * p_size p + awarded rest)%num
  end.

(** A count that is a non-negative integer. *)
Definition natCount (p : premio) : Prop :=
  exists c, p_count p = of_Z c /\ (0 <= c)%Z.

(** The tier an element of [premios] was made from: its fields but the
    count. *)
Definition tierOf (p : premio) : scale :=
  mkScale (p_id p) (p_name p) (p_size p) (p_weight p).

(** The allocation of a finite quantity, tier by tier. *)
Definition c50 (q : Q) : Z := awardedAt q 50.
Definition r50 (q : Q) : Q := leftAt q 50.
Definition c35 (q : Q) : Z := awardedAt (r50 q) 35.
Definition r35 (q : Q) : Q := leftAt (r50 q) 35.
Definition c10 (q : Q) : Z := awardedAt (r35 q) 10.
Definition r10 (q : Q) : Q := leftAt (r35 q) 10.

Definition premiosOf (a b c : Z) : list premio :=
  [ mkPremio 3 "Escala 3" 50%Z 12%Z a;
    mkPremio 2 "Escala 2" 35%Z 6%Z b;
    mkPremio 1 "Escala 1" 10%Z 1%Z c ].

(** The rows one tier contributes: none for a zero count; the anchor tier
    spreads a positive remainder over its repetitions. *)
Definition tierRow (nm : string) (sz cnt : Z) (anchor : bool)
    (rem u : number) : list row :=
  if (cnt =? 0)%Z then []
  else
    let qty :=
      if anchor && (rem >? 0%Z)%num then (of_Z sz + rem / of_Z cnt)%num
      else of_Z sz in
    [ mkRow nm (of_Z cnt) qty (qty * u)%num ].



(** The tier a row is labelled with. *)
Definition rowTier (r : row) : option scale :=
  find (fun s => String.eqb (name s) (label r)) SCALES.


(** No row is labelled with a tier whose count is 0. *)
Definition noZeroTierRow (r : result) : bool :=
  forallb
    (fun p =>
       negb (p_count p === 0%Z)%num
       || negb (existsb (fun w => String.eqb (label w) (p_name p))
                        (aplicativoRows r)))
    (premios r).

(** ** The display and the exports *)

(** The totals row of the table (lines 251-263) recomputes the two sums from
    the rows, and line 210 recomputes the score from [premios]. *)
Definition footerPlanchas (rows : list row) : number :=
  round2 (fold_left (fun a r => (a + planchasPorRep r * repetir r)%num)
                    rows (0%Z : number)).

Definition footerMonto (rows : list row) : number :=
  round2 (fold_left (fun a r => (a + montoPorRep r * repetir r)%num)
                    rows (0%Z : number)).

Definition footerPremios (ps : list premio) : number :=
  fold_left (fun a s => (a + p_count s * p_weight s)%num) ps (0%Z : number).

(** Line 218: [aplicativoRows.length === 0] selects the prompt instead of
    the table. *)
Definition showsPrompt (r : result) : bool :=
  Nat.eqb (List.length (aplicativoRows r)) 0.

(** [xs.join(sep)] on an array of strings. *)
Fixpoint join (sep : string) (xs : list string) : string :=
  match xs with
  | [] => EmptyString
  | x :: rest =>
      match rest with
      | [] => x
      | _ :: _ => (x ++ sep ++ join sep rest)%string
      end
  end.

Definition tab : string := String "009" EmptyString.
Definition newline : string := String "010" EmptyString.
Definition comma : string := String "," EmptyString.

(** The array a row is exported as (lines 325 and 346).  [join] turns its
    numbers into strings with the conversion of the language, which the
    model takes as the parameter [toStr]. *)
Definition exportCells (toStr : number -> string) (r : row) : list string :=
  [ label r; toStr (repetir r); toStr (round2 (planchasPorRep r));
    toStr (round2 (montoPorRep r)) ].

(** The header cells of [CopyButton]; strings are byte strings and the
    inverted question mark is its two bytes in UTF-8. *)
Definition copyHeader : list string :=
  [ "Relevos"%string;
    String "194" (String "191" "Repetir Canje?");
    "Planchas"%string;
    "Monto S/."%string ].

Definition csvHeader : list string :=
  [ "Relevos"%string; "Repetir"%string; "Planchas"%string; "Monto"%string ].

(** [text] of [CopyButton] (lines 321-327). *)
Definition copyText (toStr : number -> string) (rows : list row) : string :=
  let header := join tab copyHeader in
  let body := join newline (map (fun r => join tab (exportCells toStr r)) rows) in
  (header ++ newline ++ body)%string.

(** [csv] of [DownloadCSVButton] (lines 342-348). *)
Definition csvText (toStr : number -> string) (rows : list row) : string :=
  let header := join comma csvHeader in
  let body := join newline (map (fun r => join comma (exportCells toStr r)) rows) in
  (header ++ newline ++ body)%string.

(** ** Further definitions of the specification *)

(** The guard of line 34, on the coerced inputs. *)
Definition guard (planchasInput montoInput : number) : bool :=
  ((Number planchasInput || 0%Z) <=? 0%Z)%num
  || ((Number montoInput || 0%Z) <? 0%Z)%num.

(** A count the [forEach] of line 78 makes a row for. *)
Definition rowed (p : premio) : bool := negb (p_count p === 0%Z)%num.

(** The row the [forEach] pushes for an element whose count is not 0. *)
Definition rowAt (p : premio) (idx lastIdx : Z) (rem u : number) : row :=
  let planchasPorRep :=
    if (idx =? lastIdx)%Z && (rem >? 0%Z)%num
    then (p_size p + rem / p_count p)%num
    else p_size p in
  mkRow (p_name p) (p_count p) planchasPorRep (planchasPorRep * u)%num.

(** The size of the tier a row is labelled with (NaN when there is none). *)
Definition tierSize (w : row) : number :=
  match rowTier w with
  | Some s => size s
  | None => NaN
  end.

(** [xs] can be obtained from [ys] by deleting elements. *)
Fixpoint isSubseq (xs ys : list string) : bool :=
  match xs, ys with
  | [], _ => true
  | _ :: _, [] => false
  | x :: xs', y :: ys' =>
      if String.eqb x y then isSubseq xs' ys' else isSubseq xs ys'
  end.

(** What a row says about planks: everything but the amount. *)
Definition planksOf (r : row) : string * number * number :=
  (label r, repetir r, planchasPorRep r).

(** The character [c] does not occur in [s]. *)
Fixpoint charFree (c : ascii) (s : string) : bool :=
  match s with
  | EmptyString => true
  | String a rest => negb (Ascii.eqb a c) && charFree c rest
  end.

(** The fields of [s] between the occurrences of [c], as the [split] of the
    language gives them for a one-character separator. *)
Fixpoint splitOn (c : ascii) (s : string) : list string :=
  match s with
  | EmptyString => [EmptyString]
  | String a rest =>
      if Ascii.eqb a c then EmptyString :: splitOn c rest
      else
        match splitOn c rest with
        | [] => [String a EmptyString]
        | w :: ws => String a w :: ws
        end
  end.

(** A table whose cells hold neither the separator nor a line break. *)
Definition cleanLine (c : ascii) (cells : list string) : Prop :=
  cells <> [] /\
  Forall (fun x => charFree c x = true) cells /\
  Forall (fun x => charFree "010" x = true) cells.

(** A text read back as a table: lines, then fields. *)
Definition parseTable (c : ascii) (text : string) : list (list string) :=
  map (splitOn c) (splitOn "010" text).

(** ** The program in binary64 arithmetic *)

(** The definitions above compute on exact rationals.  The program computes
    in binary64: every sum, difference, product and quotient is the exact
    result rounded to the nearest number of the format, a tie going to the
    even significand, and a result of magnitude 2^1024 or more is an
    infinity.  [B64] holds that arithmetic and the body of [useCanjes] over
    it.  [Math.floor], [Math.round], [Math.abs] and the comparisons are exact
    on the numbers of the format and are shared with the definitions above. *)
Module B64.

Definition emin : Z := (-1074)%Z.
Definition emax : Z := 1024%Z.

(** The integer part of the binary logarithm of a positive rational. *)
Definition log2floor (a : Q) : Z :=
  let l := (Z.log2 (Qnum a) - Z.log2 (Zpos (Qden a)))%Z in
  if Qle_bool (2 ^ l) a then l else (l - 1)%Z.

(** The nearest integer, a tie going to the even one. *)
Definition nearestEven (x : Q) : Z :=
  let f := Qfloor x in
  match Qcompare (x - inject_Z f) (1 # 2) with
  | Lt => f
  | Gt => (f + 1)%Z
  | Eq => if Z.even f then f else (f + 1)%Z
  end.

(** The exponent of the last place: 53 significant bits, and never below
    the exponent of the smallest subnormal. *)
Definition ulpExp (a : Q) : Z := Z.max (log2floor a - 52) emin.

(** A positive rational rounded to a multiple of its last place. *)
Definition roundPos (a : Q) : Q :=
  inject_Z (nearestEven (a / 2 ^ ulpExp a)) * 2 ^ ulpExp a.

(** A rational rounded to binary64. *)
Definition rnd (q : Q) : number :=
  if Qzero q then Fin 0
  else
    let v := roundPos (Qabs q) in
    if Qle_bool (2 ^ emax) v then inf (Qneg q)
    else Fin (Qred (if Qneg q then - v else v)).

(** The result of an operation: its exact value, rounded. *)
Definition b64 (a : number) : number :=
  match a with
  | Fin q => rnd q
  | _ => a
  end.

Definition add (a b : number) : number := b64 (JS.add a b).
Definition sub (a b : number) : number := b64 (JS.sub a b).
Definition mul (a b : number) : number := b64 (JS.mul a b).
Definition div (a b : number) : number := b64 (JS.div a b).

(** [round2] (lines 25-27). *)
Definition round2 (n : number) : number :=
  div (Math_round (mul (Number n || 0%Z)%num 100%Z)) 100%Z.

(** Lines 49-54. *)
Fixpoint allocLoop (ps : list premio) (remaining : number)
  : list premio * number :=
  match ps with
  | [] => ([], remaining)
  | s :: rest =>
      let count := Math_floor (div remaining (p_size s)) in
      let remaining' := sub remaining (mul count (p_size s)) in
      let (rest', final) := allocLoop rest remaining' in
      (set_count s count :: rest', final)
  end.

(** Lines 46-54. *)
Definition allocate (planchas : number) : list premio * number :=
  allocLoop (map (fun s => with_count s 0%Z) SCALES) planchas.

(** Line 56. *)
Definition totalPremios (ps : list premio) : number :=
  fold_left (fun acc s => add acc (mul (p_count s) (p_weight s)))
            ps (0%Z : number).

(** Lines 78-90. *)
Fixpoint pushRows (ps : list premio) (idx lastIdx : Z)
    (remaining uPrice : number) (rows : list row) : list row :=
  match ps with
  | [] => rows
  | p :: rest =>
      let rows' :=
        if (p_count p === 0%Z)%num then rows
        else
          let planchasPorRep :=
            if (idx =? lastIdx)%Z && (remaining >? 0%Z)%num
            then add (p_size p) (div remaining (p_count p))
            else p_size p in
          rows ++ [ mkRow (p_name p) (p_count p) planchasPorRep
                          (mul planchasPorRep uPrice) ]
      in
      pushRows rest (idx + 1)%Z lastIdx remaining uPrice rows'
  end.

(** Lines 59-91. *)
Definition buildRows (planchas uPrice : number) (ps : list premio)
    (remaining : number) : list row :=
  if negb (anyCount ps) then
    [ mkRow "Escala 1" 1%Z planchas (mul planchas uPrice) ]
  else
    pushRows ps 0%Z (findLastIdx ps) remaining uPrice [].

(** Lines 94-101. *)
Definition controlTotals (rows : list row) : number * number :=
  fold_left
    (fun acc r =>
       (add (fst acc) (mul (planchasPorRep r) (repetir r)),
        add (snd acc) (mul (montoPorRep r) (repetir r))))
    rows ((0%Z : number), (0%Z : number)).

(** Lines 29-114. *)
Definition useCanjes (planchasInput montoInput : number) : result :=
  let planchas := (Number planchasInput || 0%Z)%num in
  let monto := (Number montoInput || 0%Z)%num in
  if (planchas <=? 0%Z)%num || (monto <? 0%Z)%num then emptyResult
  else
    let uPrice := div monto planchas in
    let (ps, remaining) := allocate planchas in
    let rows := buildRows planchas uPrice ps remaining in
    let tot := controlTotals rows in
    mkResult uPrice ps rows
      (mkTotals (round2 (fst tot)) (round2 (snd tot)) (totalPremios ps)).

(** The rows one tier contributes, as [tierRow] over the binary64
    operations. *)
Definition tierRow (nm : string) (sz cnt : Z) (anchor : bool)
    (rem u : number) : list row :=
  if (cnt =? 0)%Z then []
  else
    let qty :=
      if anchor && (rem >? 0%Z)%num then add (of_Z sz) (div rem (of_Z cnt))
      else of_Z sz in
    [ mkRow nm (of_Z cnt) qty (mul qty u) ].

(** A number of the format: a fixed point of the rounding. *)
Definition isDouble (a : number) : bool :=
  match a with
  | Fin q => match rnd q with Fin q' => Qeq_bool q' q | _ => false end
  | _ => true
  end.

End B64.

(** ** Rounding errors *)

(** The unit roundoff of binary64 and half the smallest subnormal: rounding
    a non-negative [x] moves it by at most [u53 * x + eta]. *)
Definition u53 : Q := 1 # 9007199254740992.
Definition eta : Q := 2 ^ (-1075).

(** A bound on the exact values the error analysis multiplies: 2^50. *)
Definition Bnd : Q := 1125899906842624.

(** [a] is a finite non-negative number within [rho * x + alpha] of the
    non-negative exact value [x]. *)
Definition approx (rho alpha : Q) (a : number) (x : Q) : Prop :=
  exists y, a = Fin y /\ 0 <= y /\ Qabs (y - x) <= rho * x + alpha.

(** The error of a product and of a sum from the errors of the operands. *)
Definition mulRho (r1 r2 : Q) : Q := (1 + r1) * (1 + r2) * (1 + u53) - 1.
Definition mulAlpha (r1 a1 r2 a2 : Q) : Q :=
  (a1 * (Bnd * (1 + r2) + a2) + a2 * Bnd * (1 + r1)) * (1 + u53) + eta.
Definition addRho (r1 r2 : Q) : Q := (r1 + r2) + u53 * (1 + (r1 + r2)).
Definition addAlpha (a1 a2 : Q) : Q := (a1 + a2) * (1 + u53) + eta.

(** Errors small enough for the analysis: at most 1. *)
Definition smallErr (rho alpha : Q) : Prop :=
  0 <= rho /\ rho <= 1 /\ 0 <= alpha /\ alpha <= 1.

(** The error levels of the rows and of the control totals: the quantity of
    a row, its quantity times its repetitions, its amount, its amount times
    its repetitions, and a sum of up to three such terms. *)
Definition qtyRho : Q := addRho 0 u53.
Definition qtyAlpha : Q := addAlpha 0 eta.
Definition termRho : Q := mulRho qtyRho 0.
Definition termAlpha : Q := mulAlpha qtyRho qtyAlpha 0 0.
Definition amtRho : Q := mulRho qtyRho u53.
Definition amtAlpha : Q := mulAlpha qtyRho qtyAlpha u53 eta.
Definition amtTermRho : Q := mulRho amtRho 0.
Definition amtTermAlpha : Q := mulAlpha amtRho amtAlpha 0 0.
Definition sumRho (r : Q) : Q := addRho (addRho (addRho 0 r) r) r.
Definition sumAlpha (a : Q) : Q := addAlpha (addAlpha (addAlpha 0 a) a) a.

(** ** Finite numbers and their values *)

Lemma holds_Fin x : holds (Fin x) x.
Proof. exists x; split; [reflexivity | apply Qeq_refl]. Qed.

Lemma holds_of_Z z : holds (of_Z z) (inject_Z z).
Proof. apply holds_Fin. Qed.

Lemma holds_eq a x y : holds a x -> x == y -> holds a y.
Proof.
  intros (z & -> & Hz) Hxy. exists z; split; [reflexivity|].
  now rewrite Hz.
Qed.

Lemma holds_add a b x y : holds a x -> holds b y -> holds (a + b)%num (x + y).
Proof.
  intros (x' & -> & Hx) (y' & -> & Hy). eexists; split; [reflexivity|].
  now rewrite Qred_correct, Hx, Hy.
Qed.

Lemma holds_sub a b x y : holds a x -> holds b y -> holds (a - b)%num (x - y).
Proof.
  intros (x' & -> & Hx) (y' & -> & Hy). eexists; split; [reflexivity|].
  now rewrite Qred_correct, Hx, Hy.
Qed.

Lemma holds_mul a b x y : holds a x -> holds b y -> holds (a * b)%num (x * y).
Proof.
  intros (x' & -> & Hx) (y' & -> & Hy). eexists; split; [reflexivity|].
  now rewrite Qred_correct, Hx, Hy.
Qed.

Lemma Qzero_false y : ~ y == 0 -> Qzero y = false.
Proof.
  intros H. unfold Qzero. destruct (Qeq_bool y 0) eqn:E; [|reflexivity].
  apply Qeq_bool_iff in E. contradiction.
Qed.

Lemma holds_div a b x y :
  holds a x -> holds b y -> ~ y == 0 -> holds (a / b)%num (x / y).
Proof.
  intros (x' & -> & Hx) (y' & -> & Hy) Hnz. unfold div.
  rewrite Qzero_false by (now rewrite Hy).
  eexists; split; [reflexivity|].
  now rewrite Qred_correct, Hx, Hy.
Qed.

Lemma floor_of_holds a x : holds a x -> Math_floor a = of_Z (Qfloor x).
Proof.
  intros (x' & -> & Hx). unfold Math_floor. now rewrite (Qfloor_comp _ _ Hx).
Qed.

Ltac holds_tac :=
  repeat first
    [ eassumption
    | eapply holds_add | eapply holds_sub | eapply holds_mul
    | eapply holds_div | apply holds_of_Z | apply holds_Fin ].

Lemma gt0_holds a x : holds a x -> (a >? 0%Z)%num = true <-> 0 < x.
Proof.
  intros (x' & -> & Hx). unfold gt, lt, of_Z. rewrite <- Hx.
  rewrite negb_true_iff, <- not_true_iff_false, Qle_bool_iff.
  split; intros H; [now apply Qnot_le_lt | now apply Qlt_not_le].
Qed.

Lemma gt0_false_holds a x : holds a x -> 0 <= x -> (a >? 0%Z)%num = false -> x == 0.
Proof.
  intros Ha Hx H. destruct (Qlt_le_dec 0 x) as [Hlt|Hle]; [|lra].
  apply (gt0_holds _ _ Ha) in Hlt. congruence.
Qed.





Lemma Qle_bool_false x y : y < x -> Qle_bool x y = false.
Proof.
  intros H. apply not_true_iff_false. rewrite Qle_bool_iff. now apply Qlt_not_le.
Qed.

Lemma Qle_bool_true x y : x <= y -> Qle_bool x y = true.
Proof. apply Qle_bool_iff. Qed.

Lemma inject_Z_pos s : (0 < s)%Z -> 0 < inject_Z s.
Proof. intros H. change 0 with (inject_Z 0). now rewrite <- Zlt_Qlt. Qed.

Lemma inject_Z_pos_nz p : ~ inject_Z (Z.pos p) == 0.
Proof. unfold Qeq. cbn. lia. Qed.

(** Floor division by a positive integer and what it leaves. *)
Lemma floor_div_bounds (x : Q) (s : Z) :
  (0 < s)%Z ->
  let c := inject_Z (Qfloor (x / inject_Z s)) in
  0 <= x - c * inject_Z s /\ x - c * inject_Z s < inject_Z s.
Proof.
  intros Hs c.
  assert (Hq : 0 < inject_Z s) by (change 0 with (inject_Z 0); now rewrite <- Zlt_Qlt).
  assert (Hx : x == (x / inject_Z s) * inject_Z s) by (field; lra).
  pose proof (Qfloor_le (x / inject_Z s)) as Hlo.
  pose proof (Qlt_floor (x / inject_Z s)) as Hhi.
  rewrite inject_Z_plus in Hhi. fold c in Hlo, Hhi.
  set (y := x / inject_Z s) in *.
  assert (c * inject_Z s <= y * inject_Z s) by (apply Qmult_le_compat_r; lra).
  assert (y * inject_Z s < (c + inject_Z 1) * inject_Z s)
    by (apply Qmult_lt_compat_r; lra).
  change (inject_Z 1) with 1 in *.
  split; rewrite Hx at 1; lra.
Qed.

Lemma floor_div_nonneg (x : Q) (s : Z) :
  (0 < s)%Z -> 0 <= x -> (0 <= Qfloor (x / inject_Z s))%Z.
Proof.
  intros Hs Hx.
  assert (Hq : 0 < inject_Z s) by (change 0 with (inject_Z 0); now rewrite <- Zlt_Qlt).
  change 0%Z with (Qfloor 0). apply Qfloor_resp_le.
  apply Qle_shift_div_l; lra.
Qed.

(** ** Coercion, rounding and the tolerance check on finite numbers *)

Lemma holds_or0 a x : holds a x -> holds (Number a || 0%Z)%num x.
Proof.
  intros (y & -> & Hy). unfold Number, or, truthy, Qzero.
  destruct (Qeq_bool y 0) eqn:E; cbn [negb].
  - apply Qeq_bool_iff in E. exists (inject_Z 0). split; [reflexivity|].
    change (inject_Z 0) with 0. now rewrite <- Hy, E.
  - now exists y.
Qed.

Lemma or0_pos q : 0 < q -> (Number (Fin q) || 0%Z)%num = Fin q.
Proof.
  intros H. unfold Number, or, truthy. rewrite Qzero_false; [reflexivity | lra].
Qed.

Lemma round_of_holds a x :
  holds a x -> Math_round a = of_Z (Qfloor (x + (1 # 2))).
Proof.
  intros (y & -> & Hy). unfold Math_round. now rewrite Hy.
Qed.

Lemma round2_holds a x :
  holds a x ->
  exists y, holds (round2 a) y /\ Qabs (y - x) <= 1 # 200.
Proof.
  intros Ha. unfold round2.
  pose proof (holds_mul _ _ _ _ (holds_or0 _ _ Ha) (holds_of_Z 100)) as Hm.
  rewrite (round_of_holds _ _ Hm).
  set (f := Qfloor (x * inject_Z 100 + (1 # 2))).
  exists (inject_Z f / inject_Z 100). split.
  - apply holds_div; [apply holds_of_Z | apply holds_of_Z | discriminate].
  - pose proof (Qfloor_le (x * inject_Z 100 + (1 # 2))) as Hlo.
    pose proof (Qlt_floor (x * inject_Z 100 + (1 # 2))) as Hhi.
    fold f in Hlo, Hhi. rewrite inject_Z_plus in Hhi.
    change (inject_Z 100) with 100 in *. change (inject_Z 1) with 1 in *.
    assert (Hy : inject_Z f == inject_Z f / 100 * 100) by field.
    clearbody f. set (y := inject_Z f / 100) in *.
    apply Qabs_Qle_condition. split; lra.
Qed.


Lemma Qabs_near x y : Qabs (y - x) <= 1 # 200 -> Qabs (x - y) < 1 # 100.
Proof.
  intros H. apply Qabs_Qle_condition in H.
  apply Qabs_Qlt_condition. split; lra.
Qed.

Lemma Qabs_same x y : x == y -> Qabs (x - y) < 1 # 100.
Proof.
  intros H. apply Qabs_Qlt_condition. split; lra.
Qed.

(** ** The allocation loop on finite inputs *)

Lemma leftAt_bounds x s :
  (0 < s)%Z -> 0 <= leftAt x s /\ leftAt x s < inject_Z s.
Proof. intros Hs. exact (floor_div_bounds x s Hs). Qed.

Lemma awardedAt_nonneg x s : (0 < s)%Z -> 0 <= x -> (0 <= awardedAt x s)%Z.
Proof. apply floor_div_nonneg. Qed.





(** One turn of the loop. *)
Lemma allocLoop_cons p rest rem x s :
  p_size p = of_Z s -> (0 < s)%Z -> holds rem x ->
  exists rem',
    holds rem' (leftAt x s) /\
    allocLoop (p :: rest) rem =
      (set_count p (of_Z (awardedAt x s)) :: fst (allocLoop rest rem'),
       snd (allocLoop rest rem')).
Proof.
  intros Hp Hs Hrem.
  assert (Hnz : ~ inject_Z s == 0) by (pose proof (inject_Z_pos s Hs); lra).
  pose proof (holds_div _ _ _ _ Hrem (holds_of_Z s) Hnz) as Hd.
  pose proof (floor_of_holds _ _ Hd) as Hf. fold (awardedAt x s) in Hf.
  exists (rem - of_Z (awardedAt x s) * of_Z s)%num. split.
  - apply holds_sub; [assumption|]. apply holds_mul; apply holds_of_Z.
  - cbn [allocLoop]. rewrite Hp, Hf.
    now destruct (allocLoop rest _).
Qed.

(** Reconstruction, for any table of positive integer sizes: the awarded
    units and the final remainder add up to the initial quantity. *)
Lemma allocLoop_reconstruct ps :
  sized ps -> forall rem x, holds rem x ->
  exists a r,
    holds (awarded (fst (allocLoop ps rem))) a /\
    holds (snd (allocLoop ps rem)) r /\
    a + r == x.
Proof.
  induction 1 as [|p rest (s & Hp & Hs) _ IH]; intros rem x Hrem.
  - exists 0, x. cbn. repeat split; [apply holds_of_Z | assumption | lra].
  - destruct (allocLoop_cons p rest rem x s Hp Hs Hrem) as (rem' & Hrem' & ->).
    destruct (IH rem' _ Hrem') as (a & r & Ha & Hr & Hsum).
    exists (inject_Z (awardedAt x s) * inject_Z s + a), r.
    cbn [fst snd awarded set_count p_count p_size]. rewrite Hp.
    repeat split.
    + apply holds_add; [|assumption]. apply holds_mul; apply holds_of_Z.
    + assumption.
    + unfold leftAt in Hsum. lra.
Qed.


Lemma allocLoop_counts ps :
  sized ps -> forall rem x, holds rem x -> 0 <= x ->
  Forall natCount (fst (allocLoop ps rem)).
Proof.
  induction 1 as [|p rest (s & Hp & Hs) _ IH]; intros rem x Hrem Hx.
  - constructor.
  - destruct (allocLoop_cons p rest rem x s Hp Hs Hrem) as (rem' & Hrem' & ->).
    cbn [fst]. constructor.
    + exists (awardedAt x s). split; [reflexivity | now apply awardedAt_nonneg].
    + apply (IH rem' _ Hrem'). now apply leftAt_bounds.
Qed.

Lemma allocLoop_tiers ps rem :
  map tierOf (fst (allocLoop ps rem)) = map tierOf ps.
Proof.
  revert rem. induction ps as [|p rest IH]; intros rem; [reflexivity|].
  cbn [allocLoop]. specialize (IH (rem - Math_floor (rem / p_size p) * p_size p)%num).
  destruct (allocLoop rest _) as [rest' final]. cbn [fst map] in *.
  now rewrite IH.
Qed.


Lemma allocate_fin q :
  exists rem,
    holds rem (r10 q) /\
    allocate (Fin q) = (premiosOf (c50 q) (c35 q) (c10 q), rem).
Proof.
  unfold allocate. cbn [map SCALES].
  edestruct (allocLoop_cons (with_count (mkScale 3 "Escala 3" 50%Z 12%Z) 0%Z))
    as (rem1 & H1 & ->); [reflexivity | lia | apply holds_Fin |].
  edestruct (allocLoop_cons (with_count (mkScale 2 "Escala 2" 35%Z 6%Z) 0%Z))
    as (rem2 & H2 & ->); [reflexivity | lia | exact H1 |].
  edestruct (allocLoop_cons (with_count (mkScale 1 "Escala 1" 10%Z 1%Z) 0%Z))
    as (rem3 & H3 & ->); [reflexivity | lia | exact H2 |].
  exists rem3. split; [exact H3 | reflexivity].
Qed.

Lemma r50_bounds q : 0 <= r50 q /\ r50 q < 50.
Proof. apply (leftAt_bounds q 50). lia. Qed.

Lemma r35_bounds q : 0 <= r35 q /\ r35 q < 35.
Proof. apply (leftAt_bounds (r50 q) 35). lia. Qed.

Lemma r10_bounds q : 0 <= r10 q /\ r10 q < 10.
Proof. apply (leftAt_bounds (r35 q) 10). lia. Qed.

Lemma c50_nonneg q : 0 <= q -> (0 <= c50 q)%Z.
Proof. apply awardedAt_nonneg. lia. Qed.

Lemma c35_nonneg q : (0 <= c35 q)%Z.
Proof. apply awardedAt_nonneg; [lia | apply r50_bounds]. Qed.

Lemma c10_nonneg q : (0 <= c10 q)%Z.
Proof. apply awardedAt_nonneg; [lia | apply r35_bounds]. Qed.

Lemma allocation_sum q :
  q == inject_Z (c50 q) * 50 + inject_Z (c35 q) * 35 + inject_Z (c10 q) * 10
       + r10 q.
Proof.
  assert (H1 : r50 q == q - inject_Z (c50 q) * 50) by reflexivity.
  assert (H2 : r35 q == r50 q - inject_Z (c35 q) * 35) by reflexivity.
  assert (H3 : r10 q == r35 q - inject_Z (c10 q) * 10) by reflexivity.
  lra.
Qed.



(** ** The reconciliation rows of a finite allocation *)

Lemma buildRows_premiosOf a b c planchas u rem :
  (0 <= a)%Z -> (0 <= b)%Z -> (0 <= c)%Z ->
  buildRows planchas u (premiosOf a b c) rem =
  if (a =? 0)%Z && (b =? 0)%Z && (c =? 0)%Z
  then [ mkRow "Escala 1" 1%Z planchas (planchas * u)%num ]
  else tierRow "Escala 3" 50 a ((b =? 0)%Z && (c =? 0)%Z) rem u
       ++ tierRow "Escala 2" 35 b (c =? 0)%Z rem u
       ++ tierRow "Escala 1" 10 c true rem u.
Proof.
  intros Ha Hb Hc.
  destruct a as [|a|a], b as [|b|b], c as [|c|c]; try lia; reflexivity.
Qed.

Lemma controlTotals_premiosOf a b c rem r q u x :
  (0 <= a)%Z -> (0 <= b)%Z -> (0 <= c)%Z ->
  holds rem r -> 0 <= r -> holds u x ->
  q == inject_Z a * 50 + inject_Z b * 35 + inject_Z c * 10 + r ->
  let rows := buildRows (Fin q) u (premiosOf a b c) rem in
  holds (fst (controlTotals rows)) q /\ holds (snd (controlTotals rows)) (q * x).
Proof.
  intros Ha Hb Hc Hrem Hr Hu Hq rows. subst rows.
  rewrite buildRows_premiosOf by assumption.
  destruct (rem >? 0%Z)%num eqn:Hgt;
    [ apply (gt0_holds _ _ Hrem) in Hgt as Hpos
    | pose proof (gt0_false_holds _ _ Hrem Hr Hgt) as Hzero ];
    destruct a as [|a|a], b as [|b|b], c as [|c|c]; try lia.
  all: cbn [tierRow Z.eqb andb app]; rewrite ?Hgt;
    cbn [controlTotals fold_left fst snd planchasPorRep repetir montoPorRep andb].
  all: split; (eapply holds_eq; [ holds_tac | ]); try apply inject_Z_pos_nz.
  all: change (inject_Z 0) with 0 in Hq; try rewrite Hzero in Hq; rewrite Hq.
  all: first [ ring | field; apply inject_Z_pos_nz ].
Qed.



Lemma noZeroTierRow_premiosOf a b c planchas u rem t :
  (0 <= a)%Z -> (0 <= b)%Z -> (0 <= c)%Z ->
  ~ (a = 0%Z /\ b = 0%Z /\ c = 0%Z) ->
  let ps := premiosOf a b c in
  let rows := buildRows planchas u ps rem in
  noZeroTierRow (mkResult u ps rows t) = true /\
  map label rows = map p_name (filter (fun p => negb (p_count p === 0%Z)%num) ps) /\
  map repetir rows = map p_count (filter (fun p => negb (p_count p === 0%Z)%num) ps).
Proof.
  intros Ha Hb Hc Hnz ps rows. subst ps rows.
  rewrite buildRows_premiosOf by assumption.
  destruct a as [|a|a], b as [|b|b], c as [|c|c]; try lia;
    try (exfalso; apply Hnz; repeat split; reflexivity);
    repeat split.
Qed.


(** ** [useCanjes] on a valid finite input *)

Lemma useCanjes_valid q m :
  0 < q -> 0 <= m ->
  exists rem u,
    holds rem (r10 q) /\ holds u (m / q) /\
    u = ((Number (Fin m) || 0%Z) / Fin q)%num /\
    useCanjes (Fin q) (Fin m) =
      let ps := premiosOf (c50 q) (c35 q) (c10 q) in
      let rows := buildRows (Fin q) u ps rem in
      mkResult u ps rows
        (mkTotals (round2 (fst (controlTotals rows)))
                  (round2 (snd (controlTotals rows)))
                  (totalPremios ps)).
Proof.
  intros Hq Hm. destruct (allocate_fin q) as (rem & Hrem & Halloc).
  exists rem, ((Number (Fin m) || 0%Z) / Fin q)%num.
  pose proof (holds_or0 _ _ (holds_Fin m)) as Hmon.
  split; [assumption|]. split; [|split; [reflexivity|]].
  - apply holds_div; [assumption | apply holds_Fin | lra].
  - unfold useCanjes. rewrite (or0_pos q Hq), Halloc.
    destruct Hmon as (m' & -> & Hm').
    assert (Hle : (Fin q <=? 0%Z)%num = false).
    { cbn [le of_Z]. apply not_true_iff_false. rewrite Qle_bool_iff.
      change (inject_Z 0) with 0. lra. }
    assert (Hlt : (Fin m' <? 0%Z)%num = false).
    { cbn [lt of_Z]. rewrite negb_false_iff, Qle_bool_iff.
      change (inject_Z 0) with 0. lra. }
    rewrite Hle, Hlt. reflexivity.
Qed.


(** ** The tier allocator *)



(** ** The pipeline on the documented input *)

(** C3. For count = 75 and totalAmount = 7500 the unit price is 100, the
    allocation is (50: 1, 35: 0, 10: 2) with remainder 5, and there are
    exactly two rows: the size-50 tier with repetition 1, 50 planks and
    amount 5000, and the anchor size-10 tier with repetition 2, 12.5 planks
    and amount 1250; the control totals are 75 planks and 7500. *)
Theorem anchor_spreading_75_7500 :
  let r := useCanjes 75%Z 7500%Z in
  unitPrice r = 100%Z /\
  allocate 75%Z =
    ([ mkPremio 3 "Escala 3" 50%Z 12%Z 1%Z;
       mkPremio 2 "Escala 2" 35%Z 6%Z 0%Z;
       mkPremio 1 "Escala 1" 10%Z 1%Z 2%Z ], of_Z 5) /\
  premios r = fst (allocate 75%Z) /\
  aplicativoRows r =
    [ mkRow "Escala 3" 1%Z 50%Z 5000%Z;
      mkRow "Escala 1" 2%Z (Fin (25 # 2)) 1250%Z ] /\
  controlTotals (aplicativoRows r) = (of_Z 75, of_Z 7500) /\
  t_planchas (totales r) = 75%Z /\
  t_monto (totales r) = 7500%Z.
Proof. vm_compute. repeat split. Qed.

(** ** The sentinel *)

(** C5. Whenever count <= 0 or totalAmount < 0 the result is the empty
    sentinel and nothing else: unit price 0, no tier allocation, no
    reconciliation row, and the three control totals at 0. *)
Theorem sentinel_on_invalid_input (planchasInput montoInput : number) :
  (planchasInput <=? 0%Z)%num = true \/ (montoInput <? 0%Z)%num = true ->
  useCanjes planchasInput montoInput =
    mkResult 0%Z [] [] (mkTotals 0%Z 0%Z 0%Z).
Proof.
  intros H. unfold useCanjes.
  assert (G : ((Number planchasInput || 0%Z) <=? 0%Z)%num
              || ((Number montoInput || 0%Z) <? 0%Z)%num = true).
  { apply orb_true_iff. destruct H as [H|H]; [left|right].
    - unfold Number, or. destruct (truthy planchasInput); [assumption|reflexivity].
    - unfold Number, or. destruct montoInput as [| | |y]; try discriminate H.
      + reflexivity.
      + cbn [truthy]. rewrite Qzero_false; [assumption|].
        cbn [lt of_Z] in H. rewrite negb_true_iff in H.
        apply not_true_iff_false in H. rewrite Qle_bool_iff in H.
        change (inject_Z 0) with 0 in H. lra. }
  rewrite G. reflexivity.
Qed.

Lemma sentinel_on_invalid_input_witness :
  ((-5)%Z <=? 0%Z)%num = true /\
  useCanjes (-5)%Z 100%Z = mkResult 0%Z [] [] (mkTotals 0%Z 0%Z 0%Z).
Proof.
  split; [reflexivity|].
  apply (sentinel_on_invalid_input (-5)%Z 100%Z). left. reflexivity.
Defined.

(** ** Non-finite inputs *)

(** C8, as the program has it.  [Number(v) || 0] turns NaN into 0 and
    nothing else: a NaN count gives the result of count 0, the empty
    sentinel, and a NaN amount gives the result of amount 0.  The infinities
    are not coerced; -Infinity as count meets the guard of the sentinel. *)
Theorem nan_inputs_coerced_to_zero :
  (Number NaN || 0%Z)%num = 0%Z /\
  (forall montoInput, useCanjes NaN montoInput = useCanjes 0%Z montoInput) /\
  (forall montoInput, useCanjes NaN montoInput = emptyResult) /\
  (forall planchasInput,
     useCanjes planchasInput NaN = useCanjes planchasInput 0%Z) /\
  (Number PosInf || 0%Z)%num = PosInf /\
  (Number NegInf || 0%Z)%num = NegInf /\
  (forall montoInput, useCanjes NegInf montoInput = emptyResult).
Proof. repeat split. Qed.

(** C8 as stated fails: +Infinity as count is not coerced and does not give
    the sentinel, and a NaN amount with a positive count gives the rows of
    amount 0, not the sentinel. *)
Lemma infinity_not_coerced :
  (Number PosInf || 0%Z)%num <> 0%Z /\
  useCanjes 0%Z 0%Z = emptyResult /\
  useCanjes PosInf 0%Z <> emptyResult /\
  map p_count (premios (useCanjes PosInf 0%Z)) = [PosInf; NaN; NaN] /\
  List.length (aplicativoRows (useCanjes PosInf 0%Z)) = 3%nat /\
  useCanjes 7%Z NaN <> emptyResult.
Proof. repeat split; try discriminate. Qed.

(** ** The reconciliation builder *)



(** ** Rows and their tiers *)





(** ** [round2] *)

Lemma round2_of_holds a x :
  holds a x ->
  round2 a = Fin (Qred (inject_Z (Qfloor (x * 100 + (1 # 2))) / 100)).
Proof.
  intros Ha. unfold round2.
  destruct (holds_or0 _ _ Ha) as (y & -> & Hy).
  cbn [mul of_Z Math_round]. unfold div.
  change (Qzero (inject_Z 100)) with false. cbn iota.
  change (inject_Z 100) with 100.
  assert (E : Qred (y * 100) + (1 # 2) == x * 100 + (1 # 2))
    by (now rewrite Qred_correct, Hy).
  now rewrite (Qfloor_comp _ _ E).
Qed.

Lemma round2_NaN : round2 NaN = 0%Z.
Proof. reflexivity. Qed.

Lemma round2_PosInf : round2 PosInf = PosInf.
Proof. reflexivity. Qed.

Lemma round2_NegInf : round2 NegInf = NegInf.
Proof. reflexivity. Qed.

Lemma Qfloor_int_half k : Qfloor (inject_Z k + (1 # 2)) = k.
Proof.
  pose proof (Qfloor_le (inject_Z k + (1 # 2))) as Hlo.
  pose proof (Qlt_floor (inject_Z k + (1 # 2))) as Hhi.
  rewrite inject_Z_plus in Hhi. change (inject_Z 1) with 1 in Hhi.
  set (f := Qfloor (inject_Z k + (1 # 2))) in *. clearbody f.
  assert (H1 : (f < k + 1)%Z).
  { rewrite Zlt_Qlt, inject_Z_plus. change (inject_Z 1) with 1. lra. }
  assert (H2 : (k < f + 1)%Z).
  { rewrite Zlt_Qlt, inject_Z_plus. change (inject_Z 1) with 1. lra. }
  lia.
Qed.




(** ** [useCanjes] on every input *)

Lemma useCanjes_guarded p m : guard p m = true -> useCanjes p m = emptyResult.
Proof. intros H. unfold useCanjes. fold (guard p m). now rewrite H. Qed.

Lemma useCanjes_unguarded p m :
  guard p m = false ->
  let planchas := (Number p || 0%Z)%num in
  let u := ((Number m || 0%Z) / planchas)%num in
  let ps := fst (allocate planchas) in
  let rows := buildRows planchas u ps (snd (allocate planchas)) in
  useCanjes p m =
    mkResult u ps rows
      (mkTotals (round2 (fst (controlTotals rows)))
                (round2 (snd (controlTotals rows)))
                (totalPremios ps)).
Proof.
  intros H. unfold useCanjes. fold (guard p m). rewrite H.
  cbn zeta. now destruct (allocate _).
Qed.

Lemma pushRows_app ps : forall idx lastIdx rem u rows,
  pushRows ps idx lastIdx rem u rows = rows ++ pushRows ps idx lastIdx rem u [].
Proof.
  induction ps as [|p rest IH]; intros idx lastIdx rem u rows.
  - cbn. now rewrite app_nil_r.
  - cbn [pushRows]. destruct (p_count p === 0%Z)%num; [apply IH|].
    rewrite IH. rewrite (IH _ _ _ _ ([] ++ _)).
    now rewrite app_nil_l, app_assoc.
Qed.

Lemma pushRows_cons p rest idx lastIdx rem u :
  pushRows (p :: rest) idx lastIdx rem u [] =
  (if rowed p then [rowAt p idx lastIdx rem u] else [])
  ++ pushRows rest (idx + 1)%Z lastIdx rem u [].
Proof.
  cbn [pushRows]. rewrite pushRows_app. unfold rowed.
  now destruct (p_count p === 0%Z)%num.
Qed.

Lemma pushRows_labels ps : forall idx lastIdx rem u,
  map label (pushRows ps idx lastIdx rem u []) = map p_name (filter rowed ps) /\
  map repetir (pushRows ps idx lastIdx rem u []) = map p_count (filter rowed ps).
Proof.
  induction ps as [|p rest IH]; intros idx lastIdx rem u; [now split|].
  rewrite pushRows_cons, !map_app. cbn [filter].
  destruct (IH (idx + 1)%Z lastIdx rem u) as [-> ->].
  destruct (rowed p); now split.
Qed.


Lemma pushRows_planks ps : forall idx lastIdx rem u u',
  map planksOf (pushRows ps idx lastIdx rem u []) =
  map planksOf (pushRows ps idx lastIdx rem u' []).
Proof.
  induction ps as [|p rest IH]; intros idx lastIdx rem u u'; [reflexivity|].
  rewrite !pushRows_cons, !map_app, (IH _ _ _ u u').
  now destruct (rowed p).
Qed.

Lemma anyCount_rowed ps : anyCount ps = true -> filter rowed ps <> [].
Proof.
  unfold anyCount. induction ps as [|p rest IH]; [discriminate|].
  cbn [existsb filter]. intros H. apply orb_true_iff in H.
  destruct (rowed p) eqn:E; [discriminate|].
  destruct H as [H|H]; [|now apply IH].
  exfalso. unfold rowed in E. apply negb_false_iff in E.
  destruct (p_count p) as [| | |x]; try discriminate.
  unfold gt, lt, of_Z in H. cbn [seq of_Z] in E.
  apply negb_true_iff, not_true_iff_false in H. apply H.
  apply Qle_bool_iff. apply Qeq_bool_iff in E. rewrite E. apply Qle_refl.
Qed.

Lemma buildRows_nonempty planchas u ps rem : buildRows planchas u ps rem <> [].
Proof.
  unfold buildRows. destruct (anyCount ps) eqn:E; cbn [negb]; [|discriminate].
  intros H. apply (anyCount_rowed ps E).
  apply (f_equal (map label)) in H.
  rewrite (proj1 (pushRows_labels ps _ _ _ _)) in H.
  now apply map_eq_nil in H.
Qed.

(** X4. The result has no row exactly when the guard of the sentinel holds
    on the coerced inputs, for every pair of numbers: the display shows its
    prompt instead of the table in that case and in no other, and the
    result is then the empty one. *)
Theorem no_rows_iff_sentinel (p m : number) :
  showsPrompt (useCanjes p m) = guard p m /\
  (aplicativoRows (useCanjes p m) = [] <-> guard p m = true) /\
  (useCanjes p m = emptyResult <-> guard p m = true).
Proof.
  destruct (guard p m) eqn:G.
  - rewrite (useCanjes_guarded p m G). repeat split; reflexivity.
  - rewrite (useCanjes_unguarded p m G). cbn zeta.
    set (rows := buildRows _ _ _ _).
    assert (Hne : rows <> []) by apply buildRows_nonempty.
    split; [|split; split; intros H].
    + unfold showsPrompt. cbn [aplicativoRows].
      destruct rows; [contradiction | reflexivity].
    + cbn [aplicativoRows] in H. contradiction.
    + discriminate H.
    + apply (f_equal aplicativoRows) in H. cbn [aplicativoRows emptyResult] in H.
      contradiction.
    + discriminate H.
Qed.

Lemma allocate_tiers planchas : map tierOf (fst (allocate planchas)) = SCALES.
Proof. unfold allocate. now rewrite allocLoop_tiers. Qed.

Lemma allocate_shape planchas :
  exists c1 c2 c3 : number,
    fst (allocate planchas) =
      [ mkPremio 3 "Escala 3" 50%Z 12%Z c1;
        mkPremio 2 "Escala 2" 35%Z 6%Z c2;
        mkPremio 1 "Escala 1" 10%Z 1%Z c3 ].
Proof.
  pose proof (allocate_tiers planchas) as H.
  destruct (fst (allocate planchas)) as [|[i1 n1 s1 w1 c1] [|[i2 n2 s2 w2 c2]
    [|[i3 n3 s3 w3 c3] [|? ?]]]]; try discriminate H.
  cbn in H. injection H as -> -> -> -> -> -> -> -> -> -> -> ->.
  now exists c1, c2, c3.
Qed.

Lemma rowed_seq p : rowed p = true -> (p_count p === 0%Z)%num = false.
Proof. unfold rowed. now rewrite negb_true_iff. Qed.

Lemma filter_Forall {A} (f : A -> bool) l : Forall (fun x => f x = true) (filter f l).
Proof.
  induction l as [|a l IH]; [constructor|]. cbn.
  destruct (f a) eqn:E; [constructor|]; assumption.
Qed.

(** X5. For every pair of numbers, the labels of the rows are tier names
    in the order of the table, each at most once (so there are at most three
    rows), and no row has a repetition equal to 0. *)
Theorem rows_follow_tier_order (p m : number) :
  let rows := aplicativoRows (useCanjes p m) in
  isSubseq (map label rows) (map name SCALES) = true /\
  (List.length rows <= 3)%nat /\
  Forall (fun w => (repetir w === 0%Z)%num = false) rows.
Proof.
  intros rows. subst rows. destruct (guard p m) eqn:G.
  - rewrite (useCanjes_guarded p m G). cbn. repeat split; [lia | constructor].
  - rewrite (useCanjes_unguarded p m G). cbn zeta. cbn [aplicativoRows].
    set (pl := (Number p || 0%Z)%num).
    destruct (allocate_shape pl) as (c1 & c2 & c3 & E). rewrite E.
    unfold buildRows. destruct (anyCount _); cbn [negb].
    2:{ repeat split; [cbn; lia | repeat constructor]. }
    match goal with |- context [pushRows ?ps ?i ?l ?r ?u []] =>
      destruct (pushRows_labels ps i l r u) as [Hl Hr];
      set (rows := pushRows ps i l r u []) in * end.
    split; [|split].
    + rewrite Hl. cbn [filter].
      destruct (rowed _), (rowed _), (rowed _); reflexivity.
    + rewrite <- (length_map label), Hl, length_map. cbn [filter].
      destruct (rowed _), (rowed _), (rowed _); cbn; lia.
    + apply Forall_forall. intros w Hw.
      apply (in_map repetir) in Hw. rewrite Hr in Hw.
      apply in_map_iff in Hw. destruct Hw as (q & <- & Hq).
      apply filter_In in Hq. now apply rowed_seq.
Qed.


(** X7. The amount only prices the rows: two amounts the guard lets through
    give, for the same count, the same per-tier list and rows with the same
    labels, repetitions and quantities-per-repetition. *)
Theorem planks_do_not_depend_on_amount (p m m' : number) :
  guard p m = false -> guard p m' = false ->
  premios (useCanjes p m) = premios (useCanjes p m') /\
  map planksOf (aplicativoRows (useCanjes p m)) =
  map planksOf (aplicativoRows (useCanjes p m')) /\
  t_premios (totales (useCanjes p m)) = t_premios (totales (useCanjes p m')).
Proof.
  intros G G'.
  rewrite (useCanjes_unguarded p m G), (useCanjes_unguarded p m' G').
  cbn zeta. cbn [premios aplicativoRows totales t_premios].
  split; [reflexivity | split; [|reflexivity]].
  unfold buildRows. destruct (anyCount _); cbn [negb];
    [apply pushRows_planks | reflexivity].
Qed.

Lemma planks_do_not_depend_on_amount_witness :
  guard 75%Z 7500%Z = false /\ guard 75%Z 100%Z = false /\
  map planksOf (aplicativoRows (useCanjes 75%Z 7500%Z)) =
  map planksOf (aplicativoRows (useCanjes 75%Z 100%Z)).
Proof.
  split; [reflexivity | split; [reflexivity|]].
  apply (planks_do_not_depend_on_amount 75%Z 7500%Z 100%Z); reflexivity.
Defined.

(** ** The allocation of a finite count: bounds and optimality *)






(** ** Reported totals and the anchor row *)

Lemma round2_same_value a b x : holds a x -> holds b x -> round2 a = round2 b.
Proof.
  intros Ha Hb. now rewrite (round2_of_holds a x Ha), (round2_of_holds b x Hb).
Qed.

Lemma controlTotals_valid q m :
  0 < q -> 0 <= m ->
  holds (fst (controlTotals (aplicativoRows (useCanjes (Fin q) (Fin m))))) q /\
  holds (snd (controlTotals (aplicativoRows (useCanjes (Fin q) (Fin m))))) m.
Proof.
  intros Hq Hm.
  destruct (useCanjes_valid q m Hq Hm) as (rem & u & Hrem & Hu & _ & ->).
  cbn zeta. cbn [aplicativoRows].
  destruct (controlTotals_premiosOf (c50 q) (c35 q) (c10 q) rem (r10 q) q u (m / q))
    as [Hp Hmo];
    [ now apply c50_nonneg, Qlt_le_weak | apply c35_nonneg | apply c10_nonneg
    | assumption | apply r10_bounds | assumption | apply allocation_sum | ].
  cbn zeta in Hp, Hmo. split; [exact Hp|].
  apply (holds_eq _ _ _ Hmo). field. lra.
Qed.

Lemma anchor_premiosOf a b c planchas u rem r :
  (0 <= a)%Z -> (0 <= b)%Z -> (0 <= c)%Z ->
  ~ (a = 0%Z /\ b = 0%Z /\ c = 0%Z) ->
  holds rem r -> 0 <= r ->
  let rows := buildRows planchas u (premiosOf a b c) rem in
  let w := last rows (mkRow EmptyString NaN NaN NaN) in
  Forall (fun v => planchasPorRep v = tierSize v) (removelast rows) /\
  holds (planchasPorRep w * repetir w - tierSize w * repetir w)%num r.
Proof.
  intros Ha Hb Hc Hnz Hrem Hr rows w. subst w rows.
  rewrite buildRows_premiosOf by assumption.
  destruct (rem >? 0%Z)%num eqn:Hgt;
    [ apply (gt0_holds _ _ Hrem) in Hgt as Hpos
    | pose proof (gt0_false_holds _ _ Hrem Hr Hgt) as Hzero ];
    destruct a as [|a|a], b as [|b|b], c as [|c|c]; try lia;
    try (exfalso; apply Hnz; repeat split; reflexivity);
    cbn [tierRow Z.eqb andb app]; rewrite ?Hgt; cbn [andb last removelast];
    (split; [repeat constructor|]);
    cbn [planchasPorRep repetir];
    change (tierSize (mkRow "Escala 3" ?k ?x ?y)) with (of_Z 50);
    change (tierSize (mkRow "Escala 2" ?k ?x ?y)) with (of_Z 35);
    change (tierSize (mkRow "Escala 1" ?k ?x ?y)) with (of_Z 10);
    (eapply holds_eq; [ holds_tac | ]); try apply inject_Z_pos_nz;
    try rewrite Hzero;
    change (inject_Z 50) with 50; change (inject_Z 35) with 35;
    change (inject_Z 10) with 10;
    first [ ring | field; apply inject_Z_pos_nz ].
Qed.

(** ** The anchor index *)

Lemma lastIdxLoop_spec ps : forall i acc,
  let k := lastIdxLoop ps i acc in
  (anyCount ps = false -> k = acc) /\
  (anyCount ps = true ->
     (i <= k < i + Z.of_nat (List.length ps))%Z /\
     (exists p, nth_error ps (Z.to_nat (k - i)) = Some p /\
                (p_count p >? 0%Z)%num = true) /\
     anyCount (skipn (S (Z.to_nat (k - i))) ps) = false).
Proof.
  unfold anyCount.
  induction ps as [|p rest IH]; intros i acc; cbn zeta.
  - split; [reflexivity | discriminate].
  - cbn [lastIdxLoop existsb List.length].
    set (acc' := if (p_count p >? 0%Z)%num then i else acc).
    destruct (IH (i + 1)%Z acc') as [IH0 IH1].
    destruct (existsb _ rest) eqn:Erest.
    + rewrite orb_true_r. split; [discriminate|]. intros _.
      destruct (IH1 eq_refl) as (Hk & (q & Hq & Hpos) & Hskip).
      set (k := lastIdxLoop rest (i + 1)%Z acc') in *.
      assert (E : Z.to_nat (k - i) = S (Z.to_nat (k - (i + 1)))) by lia.
      rewrite E. cbn [nth_error skipn].
      split; [lia | split; [now exists q | exact Hskip]].
    + rewrite orb_false_r. rewrite (IH0 eq_refl). subst acc'.
      destruct (p_count p >? 0%Z)%num eqn:Ep.
      * split; [discriminate|]. intros _.
        replace (i - i)%Z with 0%Z by lia. cbn [Z.to_nat nth_error skipn].
        split; [lia | split; [now exists p | exact Erest]].
      * split; [reflexivity | discriminate].
Qed.

(** X13. The anchor index computed by the loop of lines 73-76, for any
    list: it is -1 exactly when no count is positive; otherwise it is the
    position of an element with a positive count after which no count is
    positive. *)
Theorem findLastIdx_is_last_positive (ps : list premio) :
  (anyCount ps = false <-> findLastIdx ps = (-1)%Z) /\
  (anyCount ps = true ->
     (0 <= findLastIdx ps < Z.of_nat (List.length ps))%Z /\
     (exists p, nth_error ps (Z.to_nat (findLastIdx ps)) = Some p /\
                (p_count p >? 0%Z)%num = true) /\
     anyCount (skipn (S (Z.to_nat (findLastIdx ps))) ps) = false).
Proof.
  unfold findLastIdx.
  destruct (lastIdxLoop_spec ps 0%Z (-1)%Z) as [H0 H1]. cbn zeta in H0, H1.
  split; [split|].
  - exact H0.
  - intros E. destruct (anyCount ps); [|reflexivity].
    destruct (H1 eq_refl) as (Hk & _). lia.
  - intros E. destruct (H1 E) as (Hk & Hp & Hs).
    rewrite Z.sub_0_r in Hp, Hs. split; [lia | split; assumption].
Qed.

Lemma findLastIdx_is_last_positive_witness :
  anyCount (premiosOf 1 2 0) = true /\
  (0 <= findLastIdx (premiosOf 1 2 0)
     < Z.of_nat (List.length (premiosOf 1 2 0)))%Z /\
  anyCount (skipn (S (Z.to_nat (findLastIdx (premiosOf 1 2 0))))
                  (premiosOf 1 2 0)) = false.
Proof.
  split; [reflexivity|].
  destruct (proj2 (findLastIdx_is_last_positive (premiosOf 1 2 0)) eq_refl)
    as (A & _ & B).
  split; assumption.
Defined.

(** ** The totals of the display *)

Lemma fold_totals rows : forall a b,
  fold_left
    (fun acc r =>
       ((fst acc + planchasPorRep r * repetir r)%num,
        (snd acc + montoPorRep r * repetir r)%num))
    rows (a, b)
  = (fold_left (fun x r => (x + planchasPorRep r * repetir r)%num) rows a,
     fold_left (fun x r => (x + montoPorRep r * repetir r)%num) rows b).
Proof.
  induction rows as [|r rows IH]; intros a b; [reflexivity|].
  cbn [fold_left fst snd]. apply IH.
Qed.

(** X14. What the display recomputes agrees with what the result reports,
    for every pair of numbers: the two totals of the table footer are
    [totales.planchas] and [totales.monto], and the "Total Premios" of the
    tier table is [totales.premios]. *)
Theorem display_totals_agree (p m : number) :
  let r := useCanjes p m in
  footerPlanchas (aplicativoRows r) = t_planchas (totales r) /\
  footerMonto (aplicativoRows r) = t_monto (totales r) /\
  footerPremios (premios r) = t_premios (totales r).
Proof.
  intros r. subst r. destruct (guard p m) eqn:G.
  - rewrite (useCanjes_guarded p m G). repeat split.
  - rewrite (useCanjes_unguarded p m G). cbn zeta.
    cbn [aplicativoRows premios totales t_planchas t_monto t_premios].
    unfold footerPlanchas, footerMonto, controlTotals.
    rewrite fold_totals. repeat split.
Qed.

(** ** The exports *)

Lemma charFree_app c x y :
  charFree c (x ++ y) = charFree c x && charFree c y.
Proof.
  induction x as [|a x IH]; [reflexivity|].
  cbn [String.append charFree]. now rewrite IH, andb_assoc.
Qed.

Lemma splitOn_free c s : charFree c s = true -> splitOn c s = [s].
Proof.
  induction s as [|a s IH]; [reflexivity|].
  cbn [charFree splitOn]. intros H. apply andb_true_iff in H as [Ha Hs].
  apply negb_true_iff in Ha. now rewrite Ha, (IH Hs).
Qed.

Lemma splitOn_app c x y :
  charFree c x = true ->
  splitOn c (x ++ String c y) = x :: splitOn c y.
Proof.
  induction x as [|a x IH]; intros H.
  - cbn [String.append splitOn]. now rewrite Ascii.eqb_refl.
  - cbn [charFree] in H. apply andb_true_iff in H as [Ha Hx].
    apply negb_true_iff in Ha. cbn [String.append splitOn].
    now rewrite Ha, (IH Hx).
Qed.

Lemma join_cons2 c x y rest :
  join (String c EmptyString) (x :: y :: rest)
  = (x ++ String c (join (String c EmptyString) (y :: rest)))%string.
Proof. reflexivity. Qed.

Lemma splitOn_join c xs :
  xs <> [] -> Forall (fun x => charFree c x = true) xs ->
  splitOn c (join (String c EmptyString) xs) = xs.
Proof.
  induction xs as [|x [|y rest] IH]; intros Hne Hfree; [contradiction| |].
  - cbn [join]. apply splitOn_free. now inversion Hfree.
  - rewrite join_cons2. inversion Hfree as [|? ? Hx Hrest]; subst.
    rewrite (splitOn_app c x _ Hx). f_equal.
    apply IH; [discriminate | assumption].
Qed.

Lemma charFree_join d c xs :
  Ascii.eqb c d = false ->
  Forall (fun x => charFree d x = true) xs ->
  charFree d (join (String c EmptyString) xs) = true.
Proof.
  intros Hcd. induction xs as [|x [|y rest] IH]; intros Hfree; [reflexivity| |].
  - cbn [join]. now inversion Hfree.
  - rewrite join_cons2. inversion Hfree as [|? ? Hx Hrest]; subst.
    rewrite charFree_app, Hx. cbn [charFree andb]. rewrite Hcd.
    cbn [negb andb]. now apply IH.
Qed.

Lemma parseTable_text c hdr table :
  Ascii.eqb c "010" = false ->
  cleanLine c hdr -> table <> [] -> Forall (cleanLine c) table ->
  parseTable c
    (join (String c EmptyString) hdr ++ newline
     ++ join newline (map (join (String c EmptyString)) table))%string
  = hdr :: table.
Proof.
  intros Hc (Hne & Hsep & Hnl) Htab Hclean. unfold parseTable, newline.
  change (String "010" EmptyString ++ ?s)%string with (String "010" s).
  rewrite splitOn_app by (now apply charFree_join).
  rewrite splitOn_join.
  - cbn [map]. rewrite (splitOn_join c hdr Hne Hsep). f_equal.
    rewrite map_map. clear Htab.
    induction Hclean as [|cells table (H1 & H2 & H3) _ IH]; [reflexivity|].
    cbn [map]. now rewrite (splitOn_join c cells H1 H2), IH.
  - destruct table; [contradiction | discriminate].
  - clear Htab. induction Hclean as [|cells table (H1 & H2 & H3) _ IH];
      constructor; [now apply charFree_join | exact IH].
Qed.

Lemma rows_labels p m :
  Forall (fun w => In (label w) (map name SCALES))
         (aplicativoRows (useCanjes p m)).
Proof.
  destruct (guard p m) eqn:G.
  - rewrite (useCanjes_guarded p m G). constructor.
  - rewrite (useCanjes_unguarded p m G). cbn zeta. cbn [aplicativoRows].
    set (pl := (Number p || 0%Z)%num).
    destruct (allocate_shape pl) as (c1 & c2 & c3 & E). rewrite E.
    unfold buildRows. destruct (anyCount _); cbn [negb].
    2:{ constructor; [cbn; tauto | constructor]. }
    match goal with |- context [pushRows ?ps ?i ?l ?r ?u []] =>
      destruct (pushRows_labels ps i l r u) as [Hl _];
      set (rows := pushRows ps i l r u []) in * end.
    apply Forall_forall. intros w Hw.
    apply (in_map label) in Hw. rewrite Hl in Hw.
    apply in_map_iff in Hw. destruct Hw as (q & <- & Hq).
    apply filter_In in Hq. destruct Hq as [Hq _].
    cbn in Hq. cbn. destruct Hq as [<-|[<-|[<-|[]]]]; cbn; tauto.
Qed.

(** X15. The two exports can be read back: when the number-to-string
    conversion never produces a comma, a tab or a line break, the CSV text
    of the rows of any result that has rows splits, on line breaks and then
    on commas, into the header cells followed by the four cells of every
    row, and the clipboard text does the same on tabs. *)
Theorem exports_parse_back (toStr : number -> string) (p m : number) :
  (forall n, charFree "," (toStr n) = true /\
             charFree "009" (toStr n) = true /\
             charFree "010" (toStr n) = true) ->
  guard p m = false ->
  let rows := aplicativoRows (useCanjes p m) in
  parseTable "," (csvText toStr rows)
    = csvHeader :: map (exportCells toStr) rows /\
  parseTable "009" (copyText toStr rows)
    = copyHeader :: map (exportCells toStr) rows.
Proof.
  intros Hstr G rows.
  assert (Hne : rows <> []).
  { subst rows. rewrite (useCanjes_unguarded p m G). cbn zeta.
    cbn [aplicativoRows]. apply buildRows_nonempty. }
  assert (Hclean : forall c, In c ["," ; "009"]%char ->
                             Forall (cleanLine c) (map (exportCells toStr) rows)).
  { intros c Hc. apply Forall_forall. intros cells Hcells.
    apply in_map_iff in Hcells. destruct Hcells as (w & <- & Hw).
    pose proof (rows_labels p m) as Hlab. rewrite Forall_forall in Hlab.
    specialize (Hlab w Hw).
    assert (Hl : charFree c (label w) = true /\ charFree "010" (label w) = true).
    { cbn in Hlab, Hc.
      destruct Hc as [<-|[<-|[]]]; destruct Hlab as [<-|[<-|[<-|[]]]];
        split; reflexivity. }
    unfold cleanLine, exportCells. split; [discriminate|].
    split; repeat constructor; try apply Hl;
      cbn in Hc; destruct Hc as [<-|[<-|[]]]; apply Hstr. }
  assert (Hmap : map (exportCells toStr) rows <> []).
  { destruct rows; [contradiction | discriminate]. }
  split.
  - unfold csvText. cbn zeta. rewrite <- map_map.
    apply (parseTable_text ","); [reflexivity | | exact Hmap | ].
    + split; [discriminate | split; repeat constructor].
    + apply Hclean. cbn. tauto.
  - unfold copyText. cbn zeta. rewrite <- map_map.
    apply (parseTable_text "009"); [reflexivity | | exact Hmap | ].
    + split; [discriminate | split; repeat constructor].
    + apply Hclean. cbn. tauto.
Qed.

Lemma exports_parse_back_witness :
  let toStr := fun n : number =>
    match n with Fin _ => "0"%string | _ => "NaN"%string end in
  (forall n, charFree "," (toStr n) = true /\
             charFree "009" (toStr n) = true /\
             charFree "010" (toStr n) = true) /\
  guard 75%Z 7500%Z = false /\
  parseTable "," (csvText toStr (aplicativoRows (useCanjes 75%Z 7500%Z)))
    = [ csvHeader;
        [ "Escala 3"; "0"; "0"; "0" ]%string;
        [ "Escala 1"; "0"; "0"; "0" ]%string ].
Proof.
  intros toStr.
  assert (H : forall n, charFree "," (toStr n) = true /\
                        charFree "009" (toStr n) = true /\
                        charFree "010" (toStr n) = true)
    by (intros [| | |x]; repeat split).
  split; [exact H | split; [reflexivity|]].
  exact (proj1 (exports_parse_back toStr 75%Z 7500%Z H eq_refl)).
Defined.

(** ** Binary64 rounding *)

Lemma pow2_pos E : 0 < 2 ^ E.
Proof. apply Qpower_0_lt. reflexivity. Qed.

Lemma pow2_plus a b : 2 ^ (a + b) == 2 ^ a * 2 ^ b.
Proof. apply Qpower_plus. discriminate. Qed.

Lemma pow2_succ a : 2 ^ (a + 1) == 2 * 2 ^ a.
Proof. rewrite pow2_plus. change (2 ^ 1) with 2. ring. Qed.

Lemma pow2_le a b : (a <= b)%Z -> 2 ^ a <= 2 ^ b.
Proof. intros H. apply Qpower_le_compat_l; [assumption | discriminate]. Qed.

Lemma pow2_lt a b : (a < b)%Z -> 2 ^ a < 2 ^ b.
Proof. intros H. apply Qpower_lt_compat_l; [assumption | reflexivity]. Qed.

Lemma pow2_lt_inv a b : 2 ^ a < 2 ^ b -> (a < b)%Z.
Proof. intros H. apply (Qpower_lt_compat_l_inv 2); [assumption | reflexivity]. Qed.

Lemma pow2_Z n : (0 <= n)%Z -> 2 ^ n == inject_Z (2 ^ n).
Proof. intros H. now rewrite Zpower_Qpower. Qed.

Lemma pow2_cancel a : 2 ^ a * 2 ^ (- a) == 1.
Proof. rewrite <- pow2_plus, Z.add_opp_diag_r. reflexivity. Qed.

Lemma Qdiv_lt_compat n d X Y :
  0 <= n -> n < X -> 0 < Y -> Y <= d -> n / d < X / Y.
Proof.
  intros Hn HnX HY HYd.
  assert (Hd : 0 < d) by lra.
  apply Qlt_shift_div_r; [assumption|].
  assert (E : X / Y * d == X * (d / Y)) by (field; lra).
  rewrite E.
  assert (1 <= d / Y) by (apply Qle_shift_div_l; lra).
  assert (0 < X) by lra. nra.
Qed.

Lemma Qdiv_le_compat n d X Y :
  0 < X -> X <= n -> 0 < d -> d <= Y -> X / Y <= n / d.
Proof.
  intros HX HXn Hd HdY.
  apply Qle_shift_div_l; [assumption|].
  assert (E : X / Y * d == X * (d / Y)) by (field; lra).
  rewrite E.
  assert (d / Y <= 1) by (apply Qle_shift_div_r; lra).
  assert (0 <= d / Y) by (apply Qle_shift_div_l; lra).
  nra.
Qed.

Lemma log2floor_spec a :
  0 < a -> 2 ^ B64.log2floor a <= a /\ a < 2 ^ (B64.log2floor a + 1).
Proof.
  intros Ha. unfold B64.log2floor.
  destruct a as [n d]. cbn [Qnum Qden].
  assert (Hn : (0 < n)%Z) by (unfold Qlt in Ha; cbn in Ha; lia).
  pose proof (Z.log2_spec n Hn) as [Hn1 Hn2].
  pose proof (Z.log2_spec (Zpos d) (Pos2Z.is_pos d)) as [Hd1 Hd2].
  pose proof (Z.log2_nonneg n) as Hln.
  pose proof (Z.log2_nonneg (Zpos d)) as Hld.
  set (ln := Z.log2 n) in *. set (ld := Z.log2 (Zpos d)) in *.
  assert (Ea : n # d == inject_Z n / inject_Z (Zpos d)) by apply Qmake_Qdiv.
  rewrite Zle_Qle, <- pow2_Z in Hn1 by lia.
  rewrite Zlt_Qlt, <- pow2_Z in Hn2 by lia.
  rewrite Zle_Qle, <- pow2_Z in Hd1 by lia.
  rewrite Zlt_Qlt, <- pow2_Z in Hd2 by lia.
  rewrite <- Z.add_1_r in Hn2, Hd2.
  pose proof (pow2_pos ln). pose proof (pow2_pos ld).
  pose proof (pow2_pos (ln + 1)). pose proof (pow2_pos (ld + 1)).
  assert (Hup : n # d < 2 ^ (ln - ld + 1)).
  { rewrite Ea. replace (ln - ld + 1)%Z with ((ln + 1) + - ld)%Z by lia.
    rewrite pow2_plus.
    assert (E : 2 ^ (ln + 1) * 2 ^ (- ld) == 2 ^ (ln + 1) / 2 ^ ld).
    { rewrite Qpower_opp. reflexivity. }
    rewrite E. apply Qdiv_lt_compat; lra. }
  assert (Hlo : 2 ^ (ln - ld - 1) < n # d).
  { rewrite Ea. replace (ln - ld - 1)%Z with (ln + - (ld + 1))%Z by lia.
    rewrite pow2_plus.
    assert (E : 2 ^ ln * 2 ^ (- (ld + 1)) == 2 ^ ln / 2 ^ (ld + 1)).
    { rewrite Qpower_opp. reflexivity. }
    rewrite E.
    apply Qlt_shift_div_l; [lra|].
    assert (E2 : 2 ^ ln / 2 ^ (ld + 1) * inject_Z (Z.pos d)
                 == 2 ^ ln * (inject_Z (Z.pos d) / 2 ^ (ld + 1))) by (field; lra).
    rewrite E2.
    assert (inject_Z (Z.pos d) / 2 ^ (ld + 1) < 1)
      by (apply Qlt_shift_div_r; lra).
    assert (0 < inject_Z (Z.pos d) / 2 ^ (ld + 1))
      by (apply Qlt_shift_div_l; lra).
    nra. }
  destruct (Qle_bool (2 ^ (ln - ld)) (n # d)) eqn:E.
  - apply Qle_bool_iff in E. split; assumption.
  - apply not_true_iff_false in E. rewrite Qle_bool_iff in E.
    apply Qnot_le_lt in E. replace (ln - ld - 1 + 1)%Z with (ln - ld)%Z by lia.
    split; [now apply Qlt_le_weak | assumption].
Qed.

Lemma log2floor_unique a e :
  2 ^ e <= a -> a < 2 ^ (e + 1) -> B64.log2floor a = e.
Proof.
  intros Hlo Hhi.
  assert (Ha : 0 < a) by (pose proof (pow2_pos e); lra).
  destruct (log2floor_spec a Ha) as [Hlo' Hhi'].
  assert (H1 : (e < B64.log2floor a + 1)%Z) by (apply pow2_lt_inv; lra).
  assert (H2 : (B64.log2floor a < e + 1)%Z) by (apply pow2_lt_inv; lra).
  lia.
Qed.

Lemma nearestEven_floor x :
  (Qfloor x <= B64.nearestEven x <= Qfloor x + 1)%Z.
Proof.
  unfold B64.nearestEven.
  destruct (Qcompare _ _); [destruct (Z.even _)| |]; lia.
Qed.

Lemma nearestEven_error x : Qabs (inject_Z (B64.nearestEven x) - x) <= 1 # 2.
Proof.
  pose proof (Qfloor_le x) as Hlo. pose proof (Qlt_floor x) as Hhi.
  rewrite inject_Z_plus in Hhi. change (inject_Z 1) with 1 in Hhi.
  unfold B64.nearestEven. set (f := Qfloor x) in *. clearbody f.
  apply Qabs_Qle_condition.
  destruct (Qcompare_spec (x - inject_Z f) (1 # 2)) as [H|H|H];
    [destruct (Z.even f)| |];
    rewrite ?inject_Z_plus; change (inject_Z 1) with 1; split; lra.
Qed.

Lemma nearestEven_int x z : x == inject_Z z -> B64.nearestEven x = z.
Proof.
  intros H. unfold B64.nearestEven.
  rewrite (Qfloor_comp _ _ H), Qfloor_Z.
  destruct (Qcompare_spec (x - inject_Z z) (1 # 2)) as [L|L|L];
    [lra | reflexivity | lra].
Qed.

Lemma nearestEven_monotone x y :
  x <= y -> (B64.nearestEven x <= B64.nearestEven y)%Z.
Proof.
  intros H. pose proof (Qfloor_resp_le x y H) as Hf.
  pose proof (nearestEven_floor x) as Bx. pose proof (nearestEven_floor y) as By.
  destruct (Z.eq_dec (Qfloor x) (Qfloor y)) as [E|E]; [|lia].
  unfold B64.nearestEven in *. rewrite E in *.
  set (f := Qfloor y) in *.
  destruct (Qcompare_spec (x - inject_Z f) (1 # 2)) as [Hx|Hx|Hx];
    destruct (Qcompare_spec (y - inject_Z f) (1 # 2)) as [Hy|Hy|Hy];
    try lia; try lra; destruct (Z.even f); lia.
Qed.

Lemma nearestEven_ge x M : inject_Z M <= x -> (M <= B64.nearestEven x)%Z.
Proof.
  intros H. pose proof (nearestEven_monotone _ _ H) as G.
  now rewrite (nearestEven_int (inject_Z M) M) in G by reflexivity.
Qed.

Lemma nearestEven_le x M : x <= inject_Z M -> (B64.nearestEven x <= M)%Z.
Proof.
  intros H. pose proof (nearestEven_monotone _ _ H) as G.
  now rewrite (nearestEven_int (inject_Z M) M) in G by reflexivity.
Qed.

Lemma ulpExp_normal a e :
  2 ^ e <= a -> a < 2 ^ (e + 1) -> (B64.emin <= e - 52)%Z ->
  B64.ulpExp a = (e - 52)%Z.
Proof.
  intros Hlo Hhi He. unfold B64.ulpExp.
  rewrite (log2floor_unique a e Hlo Hhi). lia.
Qed.

Lemma roundPos_error a :
  Qabs (B64.roundPos a - a) <= 2 ^ B64.ulpExp a / 2.
Proof.
  unfold B64.roundPos. set (E := B64.ulpExp a).
  pose proof (pow2_pos E) as HE.
  pose proof (nearestEven_error (a / 2 ^ E)) as H.
  set (n := inject_Z (B64.nearestEven (a / 2 ^ E))) in *. clearbody n.
  assert (Ea : a == a / 2 ^ E * 2 ^ E) by (field; lra).
  set (x := a / 2 ^ E) in *. clearbody x.
  apply Qabs_Qle_condition in H. apply Qabs_Qle_condition.
  setoid_replace (2 ^ E / 2) with ((1 # 2) * 2 ^ E) by field.
  rewrite Ea. set (p := 2 ^ E) in *. clearbody p. split; nra.
Qed.

Lemma roundPos_nonneg a : 0 <= a -> 0 <= B64.roundPos a.
Proof.
  intros Ha. unfold B64.roundPos. set (E := B64.ulpExp a).
  pose proof (pow2_pos E) as HE.
  apply Qmult_le_0_compat; [|lra].
  change 0 with (inject_Z 0). rewrite <- Zle_Qle.
  apply nearestEven_ge. change (inject_Z 0) with 0.
  apply Qle_shift_div_l; lra.
Qed.

Lemma roundPos_fixed a M J :
  a == inject_Z M * 2 ^ J -> (0 < M < 2 ^ 53)%Z -> (B64.emin <= J)%Z ->
  B64.roundPos a == a.
Proof.
  intros Ha HM HJ.
  pose proof (Z.log2_spec M (proj1 HM)) as [Hl1 Hl2].
  pose proof (Z.log2_nonneg M) as Hl0.
  assert (Hl52 : (Z.log2 M <= 52)%Z).
  { assert (H53 : (Z.log2 M < 53)%Z) by (apply Z.log2_lt_pow2; lia). lia. }
  set (lm := Z.log2 M) in *.
  rewrite Zle_Qle, <- pow2_Z in Hl1 by lia.
  rewrite Zlt_Qlt, <- pow2_Z in Hl2 by lia.
  rewrite <- Z.add_1_r in Hl2.
  pose proof (pow2_pos J) as HpJ.
  assert (Hlo : 2 ^ (lm + J) <= a) by (rewrite Ha, pow2_plus; nra).
  assert (Hhi : a < 2 ^ (lm + J + 1)).
  { rewrite Ha. replace (lm + J + 1)%Z with ((lm + 1) + J)%Z by lia.
    rewrite pow2_plus. nra. }
  unfold B64.roundPos, B64.ulpExp.
  rewrite (log2floor_unique a _ Hlo Hhi).
  set (E := Z.max (lm + J - 52) B64.emin).
  assert (HE : (E <= J)%Z) by (unfold E; lia).
  pose proof (pow2_pos E) as HpE.
  assert (Hx : a / 2 ^ E == inject_Z (M * 2 ^ (J - E))).
  { rewrite inject_Z_mult, <- pow2_Z by lia. rewrite Ha.
    replace J with ((J - E) + E)%Z at 1 by lia. rewrite pow2_plus.
    field. lra. }
  rewrite (nearestEven_int _ _ Hx).
  rewrite inject_Z_mult, <- pow2_Z by lia. rewrite Ha.
  replace J with ((J - E) + E)%Z at 2 by lia. rewrite pow2_plus. ring.
Qed.

Lemma roundPos_binade a e :
  2 ^ e <= a -> a < 2 ^ (e + 1) -> (B64.emin <= e - 52)%Z ->
  2 ^ e <= B64.roundPos a /\ B64.roundPos a <= 2 ^ (e + 1).
Proof.
  intros Hlo Hhi He. unfold B64.roundPos.
  rewrite (ulpExp_normal a e Hlo Hhi He).
  pose proof (pow2_pos (e - 52)) as HpE.
  assert (H52 : 2 ^ e == inject_Z (2 ^ 52) * 2 ^ (e - 52)).
  { rewrite <- pow2_Z by lia. rewrite <- pow2_plus. now replace (52 + (e - 52))%Z with e by lia. }
  assert (H53 : 2 ^ (e + 1) == inject_Z (2 ^ 53) * 2 ^ (e - 52)).
  { rewrite <- pow2_Z by lia. rewrite <- pow2_plus. now replace (53 + (e - 52))%Z with (e + 1)%Z by lia. }
  assert (L : (2 ^ 52 <= B64.nearestEven (a / 2 ^ (e - 52)))%Z).
  { apply nearestEven_ge. apply Qle_shift_div_l; [lra|]. now rewrite <- H52. }
  assert (U : (B64.nearestEven (a / 2 ^ (e - 52)) <= 2 ^ 53)%Z).
  { apply nearestEven_le. apply Qle_shift_div_r; [lra|]. rewrite <- H53. lra. }
  rewrite Zle_Qle in L, U. rewrite H52, H53.
  set (n := inject_Z (B64.nearestEven _)) in *. clearbody n.
  set (p := 2 ^ (e - 52)) in *. clearbody p.
  set (c52 := inject_Z (2 ^ 52)) in *. set (c53 := inject_Z (2 ^ 53)) in *.
  clearbody c52 c53. split; nra.
Qed.

(** Rounding is monotone on the normal range. *)
Lemma roundPos_monotone a b :
  2 ^ (B64.emin + 52) <= a -> a <= b -> B64.roundPos a <= B64.roundPos b.
Proof.
  intros Hmin Hab.
  assert (Ha : 0 < a) by (pose proof (pow2_pos (B64.emin + 52)); lra).
  assert (Hb : 0 < b) by lra.
  destruct (log2floor_spec a Ha) as [La Ua].
  destruct (log2floor_spec b Hb) as [Lb Ub].
  set (ea := B64.log2floor a) in *. set (eb := B64.log2floor b) in *.
  assert (Hea : (B64.emin + 52 < ea + 1)%Z) by (apply pow2_lt_inv; lra).
  assert (Hab' : (ea < eb + 1)%Z) by (apply pow2_lt_inv; lra).
  destruct (Z.eq_dec ea eb) as [E|E].
  - unfold B64.roundPos.
    rewrite (ulpExp_normal a ea La Ua) by lia.
    rewrite E in *.
    rewrite (ulpExp_normal b eb Lb Ub) by lia.
    pose proof (pow2_pos (eb - 52)) as Hp.
    assert (H : (B64.nearestEven (a / 2 ^ (eb - 52))
                 <= B64.nearestEven (b / 2 ^ (eb - 52)))%Z).
    { apply nearestEven_monotone. apply Qmult_le_compat_r; [assumption|].
      apply Qlt_le_weak, Qinv_lt_0_compat, Hp. }
    rewrite Zle_Qle in H. nra.
  - destruct (roundPos_binade a ea La Ua) as [_ H1]; [lia|].
    destruct (roundPos_binade b eb Lb Ub) as [H2 _]; [lia|].
    assert (2 ^ (ea + 1) <= 2 ^ eb) by (apply pow2_le; lia). lra.
Qed.

Lemma Qabs_pos_eq q : 0 < q -> Qabs q = q.
Proof.
  destruct q as [n d]. unfold Qlt. cbn. intros H.
  f_equal. apply Z.abs_eq. lia.
Qed.

Lemma Qred_int v z : v == inject_Z z -> Qred v = inject_Z z.
Proof.
  intros H. rewrite (Qred_complete _ _ H).
  apply Qcanon.Qred_identity. cbn. apply Z.gcd_1_r.
Qed.

Lemma pow2_big : 2 ^ 53 < 2 ^ B64.emax.
Proof. apply pow2_lt. unfold B64.emax. lia. Qed.

Lemma rnd_zero q : q == 0 -> B64.rnd q = Fin 0.
Proof.
  intros H. unfold B64.rnd, Qzero.
  apply Qeq_bool_iff in H. now rewrite H.
Qed.

Lemma rnd_pos q :
  0 < q -> B64.roundPos q < 2 ^ B64.emax ->
  B64.rnd q = Fin (Qred (B64.roundPos q)).
Proof.
  intros Hq Hv. unfold B64.rnd.
  rewrite Qzero_false by lra. rewrite (Qabs_pos_eq q Hq). cbn zeta.
  rewrite (Qle_bool_false _ _ Hv).
  unfold Qneg. rewrite (Qle_bool_true 0 q) by lra. reflexivity.
Qed.

(** A non-negative integer below 2^53 is a number of the format. *)
Lemma rnd_int q z :
  q == inject_Z z -> (0 <= z < 2 ^ 53)%Z -> B64.rnd q = of_Z z.
Proof.
  intros Hq Hz. destruct (Z.eq_dec z 0) as [->|Hnz].
  - now rewrite (rnd_zero q Hq).
  - assert (Hfix : B64.roundPos q == q).
    { apply (roundPos_fixed q z 0); [|lia | unfold B64.emin; lia].
      rewrite Hq. change (2 ^ 0) with 1. ring. }
    assert (Hpos : 0 < q).
    { rewrite Hq. change 0 with (inject_Z 0). rewrite <- Zlt_Qlt. lia. }
    rewrite rnd_pos; [|assumption|].
    + unfold of_Z. f_equal. apply Qred_int. now rewrite Hfix.
    + rewrite Hfix, Hq. pose proof pow2_big.
      assert (inject_Z z < 2 ^ 53); [|lra].
      rewrite pow2_Z by lia. rewrite <- Zlt_Qlt. lia.
Qed.

Lemma Qfloor_unique y k :
  inject_Z k <= y -> y < inject_Z (k + 1) -> Qfloor y = k.
Proof.
  intros Hlo Hhi.
  pose proof (Qfloor_le y) as H1. pose proof (Qlt_floor y) as H2.
  assert (A : (Qfloor y < k + 1)%Z) by (rewrite Zlt_Qlt; lra).
  assert (B : (k < Qfloor y + 1)%Z) by (rewrite Zlt_Qlt; lra).
  lia.
Qed.

(** Rounding does not cross a number of the format: between the integer
    [k] and [k + 63/64] the rounded value stays in [[k, k+1)]. *)
Lemma rnd_floor x k :
  (0 <= k)%Z -> (64 * k + 63 < 2 ^ 53)%Z ->
  x == 0 \/ 1 # 64 <= x ->
  inject_Z k <= x -> x <= inject_Z (64 * k + 63) / 64 ->
  exists y, B64.rnd x = Fin y /\ Qfloor y = k.
Proof.
  intros Hk Hbig [Hx0|Hx64] Hlo Hhi.
  { assert (k = 0%Z).
    { assert (H : inject_Z k <= inject_Z 0) by (change (inject_Z 0) with 0; lra).
      rewrite <- Zle_Qle in H. lia. }
    subst k. exists 0. now rewrite (rnd_zero x Hx0). }
  set (v := inject_Z (64 * k + 63) / 64) in *.
  assert (Hv : v == inject_Z (64 * k + 63) * 2 ^ (-6)) by reflexivity.
  assert (Hvfix : B64.roundPos v == v).
  { apply (roundPos_fixed v (64 * k + 63) (-6) Hv); [lia | unfold B64.emin; lia]. }
  assert (Hvk : v < inject_Z (k + 1)).
  { unfold v. rewrite !inject_Z_plus, inject_Z_mult.
    change (inject_Z 64) with 64. change (inject_Z 63) with 63.
    change (inject_Z 1) with 1. apply Qlt_shift_div_r; lra. }
  assert (Hmin : 2 ^ (B64.emin + 52) <= 1 # 64).
  { change (1 # 64) with (2 ^ (-6)). apply pow2_le. unfold B64.emin. lia. }
  assert (Hup : B64.roundPos x <= v).
  { rewrite <- Hvfix. apply roundPos_monotone; lra. }
  assert (Hdown : inject_Z k <= B64.roundPos x).
  { destruct (Z.eq_dec k 0) as [->|Hk0].
    - apply roundPos_nonneg. lra.
    - assert (Hkfix : B64.roundPos (inject_Z k) == inject_Z k).
      { apply (roundPos_fixed _ k 0); [|lia | unfold B64.emin; lia].
        change (2 ^ 0) with 1. ring. }
      rewrite <- Hkfix. apply roundPos_monotone; [|assumption].
      assert (1 <= inject_Z k).
      { change 1 with (inject_Z 1). rewrite <- Zle_Qle. lia. }
      lra. }
  assert (Hk53 : inject_Z (k + 1) <= 2 ^ 53).
  { rewrite pow2_Z by lia. rewrite <- Zle_Qle. lia. }
  pose proof pow2_big.
  exists (Qred (B64.roundPos x)). split.
  - apply rnd_pos; lra.
  - apply Qfloor_unique; rewrite Qred_correct; lra.
Qed.

(** *** Integer arithmetic is exact below 2^53 *)

Lemma b64_add_int a b :
  (0 <= a + b < 2 ^ 53)%Z -> B64.add (of_Z a) (of_Z b) = of_Z (a + b).
Proof.
  intros H. unfold B64.add, JS.add, of_Z, B64.b64.
  apply rnd_int; [|assumption]. now rewrite Qred_correct, inject_Z_plus.
Qed.

Lemma b64_sub_int a b :
  (0 <= a - b < 2 ^ 53)%Z -> B64.sub (of_Z a) (of_Z b) = of_Z (a - b).
Proof.
  intros H. unfold B64.sub, JS.sub, of_Z, B64.b64.
  apply rnd_int; [|assumption].
  rewrite Qred_correct. unfold Z.sub. now rewrite inject_Z_plus, inject_Z_opp.
Qed.

Lemma b64_mul_int a b :
  (0 <= a * b < 2 ^ 53)%Z -> B64.mul (of_Z a) (of_Z b) = of_Z (a * b).
Proof.
  intros H. unfold B64.mul, JS.mul, of_Z, B64.b64.
  apply rnd_int; [|assumption]. now rewrite Qred_correct, inject_Z_mult.
Qed.

(** [Math.floor(n / s)] is the integer quotient. *)
Lemma b64_floor_div n s :
  (0 <= n)%Z -> (0 < s <= 64)%Z -> (64 * (n / s) + 63 < 2 ^ 53)%Z ->
  Math_floor (B64.div (of_Z n) (of_Z s)) = of_Z (n / s).
Proof.
  intros Hn Hs Hbig.
  assert (Hsq : 0 < inject_Z s) by (apply inject_Z_pos; lia).
  unfold B64.div, JS.div, of_Z.
  rewrite (Qzero_false (inject_Z s)) by lra. cbn [B64.b64].
  set (x := Qred (inject_Z n / inject_Z s)).
  assert (Ex : x == inject_Z n / inject_Z s) by apply Qred_correct.
  pose proof (Z.div_pos n s Hn (proj1 Hs)) as Hk.
  pose proof (Z.mul_div_le n s (proj1 Hs)) as Hlo.
  pose proof (Z.mul_succ_div_gt n s (proj1 Hs)) as Hhi.
  set (k := (n / s)%Z) in *.
  destruct (rnd_floor x k Hk Hbig) as (y & -> & Hy).
  - destruct (Z.eq_dec n 0) as [->|Hn0].
    + left. rewrite Ex. change (inject_Z 0) with 0. field. lra.
    + right. rewrite Ex. apply Qle_shift_div_l; [assumption|].
      assert (inject_Z s <= 64).
      { change 64 with (inject_Z 64). rewrite <- Zle_Qle. lia. }
      assert (1 <= inject_Z n).
      { change 1 with (inject_Z 1). rewrite <- Zle_Qle. lia. }
      lra.
  - rewrite Ex. apply Qle_shift_div_l; [assumption|].
    rewrite <- inject_Z_mult, <- Zle_Qle. lia.
  - rewrite Ex. apply Qle_shift_div_r; [assumption|].
    assert (H : (64 * n <= (64 * k + 63) * s)%Z) by nia.
    rewrite Zle_Qle, !inject_Z_mult in H.
    change (inject_Z 64) with 64 in H.
    set (t := inject_Z (64 * k + 63)) in *. clearbody t.
    assert (E : t / 64 * inject_Z s == t * inject_Z s / 64) by field.
    rewrite E. apply Qle_shift_div_l; lra.
  - cbn [Math_floor]. now rewrite Hy.
Qed.

(** ** The binary64 allocation of an integer count *)

(** One turn of the loop on an integer quantity: the count is the integer
    quotient and what is left is the integer remainder. *)
Lemma b64_allocLoop_cons p rest x s :
  p_size p = of_Z s -> (0 < s <= 64)%Z ->
  (0 <= x < 2 ^ 53)%Z -> (64 * (x / s) + 63 < 2 ^ 53)%Z ->
  B64.allocLoop (p :: rest) (of_Z x) =
    (set_count p (of_Z (x / s)) :: fst (B64.allocLoop rest (of_Z (x mod s))),
     snd (B64.allocLoop rest (of_Z (x mod s)))).
Proof.
  intros Hp Hs Hx Hbig. cbn [B64.allocLoop]. rewrite Hp.
  rewrite (b64_floor_div x s) by lia.
  pose proof (Z.mul_div_le x s (proj1 Hs)) as Hle.
  pose proof (Z.div_pos x s (proj1 Hx) (proj1 Hs)) as Hk.
  rewrite b64_mul_int by nia.
  rewrite b64_sub_int by nia.
  replace (x - x / s * s)%Z with (x mod s)%Z by (rewrite Z.mod_eq; lia).
  now destruct (B64.allocLoop rest _).
Qed.

Lemma b64_allocate_int n :
  (0 <= n <= 2 ^ 52)%Z ->
  B64.allocate (of_Z n) =
    (premiosOf (n / 50) (n mod 50 / 35) ((n mod 50) mod 35 / 10),
     of_Z (((n mod 50) mod 35) mod 10)).
Proof.
  intros Hn. unfold B64.allocate. cbn [map SCALES].
  assert (H52 : (2 ^ 52 = 4503599627370496)%Z) by reflexivity.
  assert (H53 : (2 ^ 53 = 9007199254740992)%Z) by reflexivity.
  pose proof (Z.mod_pos_bound n 50 ltac:(lia)) as H50.
  pose proof (Z.mod_pos_bound (n mod 50) 35 ltac:(lia)) as H35.
  assert (Hq : (n / 50 <= 90071992547410)%Z)
    by (apply Z.div_le_upper_bound; lia).
  rewrite (b64_allocLoop_cons _ _ n 50); [|reflexivity|lia|lia|lia].
  assert (Hq2 : (n mod 50 / 35 < 2)%Z)
    by (apply Z.div_lt_upper_bound; lia).
  rewrite (b64_allocLoop_cons _ _ (n mod 50) 35); [|reflexivity|lia|lia|lia].
  assert (Hq3 : ((n mod 50) mod 35 / 10 < 4)%Z)
    by (apply Z.div_lt_upper_bound; lia).
  rewrite (b64_allocLoop_cons _ _ ((n mod 50) mod 35) 10);
    [|reflexivity|lia|lia|lia].
  reflexivity.
Qed.

Lemma int_allocation_facts n :
  (0 <= n)%Z ->
  let a := (n / 50)%Z in
  let b := (n mod 50 / 35)%Z in
  let c := ((n mod 50) mod 35 / 10)%Z in
  let r := (((n mod 50) mod 35) mod 10)%Z in
  (0 <= a)%Z /\ (0 <= b <= 1)%Z /\ (0 <= c <= 3)%Z /\ (0 <= r < 10)%Z /\
  (b = 1 -> c <= 1)%Z /\
  (a * 50 + b * 35 + c * 10 + r = n)%Z /\
  (n < 10 <-> a = 0 /\ b = 0 /\ c = 0)%Z.
Proof.
  intros Hn a b c r. subst a b c r.
  pose proof (Z.div_mod n 50 ltac:(lia)) as E1.
  pose proof (Z.mod_pos_bound n 50 ltac:(lia)) as B1.
  pose proof (Z.div_mod (n mod 50) 35 ltac:(lia)) as E2.
  pose proof (Z.mod_pos_bound (n mod 50) 35 ltac:(lia)) as B2.
  pose proof (Z.div_mod ((n mod 50) mod 35) 10 ltac:(lia)) as E3.
  pose proof (Z.mod_pos_bound ((n mod 50) mod 35) 10 ltac:(lia)) as B3.
  pose proof (Z.div_pos n 50 Hn ltac:(lia)) as P1.
  pose proof (Z.div_pos (n mod 50) 35 (proj1 B1) ltac:(lia)) as P2.
  pose proof (Z.div_pos ((n mod 50) mod 35) 10 (proj1 B2) ltac:(lia)) as P3.
  set (a := (n / 50)%Z) in *. set (r1 := (n mod 50)%Z) in *.
  set (b := (r1 / 35)%Z) in *. set (r2 := (r1 mod 35)%Z) in *.
  set (c := (r2 / 10)%Z) in *. set (r3 := (r2 mod 10)%Z) in *.
  clearbody a r1 b r2 c r3. repeat split; lia.
Qed.

Lemma int_score_optimal n a b c :
  (0 <= n)%Z -> (0 <= a)%Z -> (0 <= b)%Z -> (0 <= c)%Z ->
  (50 * a + 35 * b + 10 * c <= n)%Z ->
  (12 * a + 6 * b + c
   <= 12 * (n / 50) + 6 * (n mod 50 / 35) + (n mod 50) mod 35 / 10)%Z.
Proof.
  intros Hn Ha Hb Hc Hfit.
  pose proof (Z.div_mod n 50 ltac:(lia)) as E1.
  pose proof (Z.mod_pos_bound n 50 ltac:(lia)) as B1.
  pose proof (Z.div_mod (n mod 50) 35 ltac:(lia)) as E2.
  pose proof (Z.mod_pos_bound (n mod 50) 35 ltac:(lia)) as B2.
  pose proof (Z.div_mod ((n mod 50) mod 35) 10 ltac:(lia)) as E3.
  pose proof (Z.mod_pos_bound ((n mod 50) mod 35) 10 ltac:(lia)) as B3.
  pose proof (Z.div_pos n 50 Hn ltac:(lia)) as P1.
  pose proof (Z.div_pos (n mod 50) 35 (proj1 B1) ltac:(lia)) as P2.
  pose proof (Z.div_pos ((n mod 50) mod 35) 10 (proj1 B2) ltac:(lia)) as P3.
  set (A := (n / 50)%Z) in *. set (r1 := (n mod 50)%Z) in *.
  set (B := (r1 / 35)%Z) in *. set (r2 := (r1 mod 35)%Z) in *.
  set (C := (r2 / 10)%Z) in *. set (r3 := (r2 mod 10)%Z) in *.
  clearbody A r1 B r2 C r3. lia.
Qed.

Lemma b64_totalPremios_int a b c :
  (0 <= a <= 2 ^ 47)%Z -> (0 <= b <= 1)%Z -> (0 <= c <= 3)%Z ->
  B64.totalPremios (premiosOf a b c) = of_Z (12 * a + 6 * b + c).
Proof.
  intros Ha Hb Hc.
  assert (H47 : (2 ^ 47 = 140737488355328)%Z) by reflexivity.
  assert (H53 : (2 ^ 53 = 9007199254740992)%Z) by reflexivity.
  unfold B64.totalPremios. cbn [premiosOf fold_left p_count p_weight].
  rewrite (b64_mul_int a 12) by lia.
  rewrite (b64_add_int 0 (a * 12)) by lia.
  rewrite (b64_mul_int b 6) by lia.
  rewrite (b64_add_int (0 + a * 12) (b * 6)) by lia.
  rewrite (b64_mul_int c 1) by lia.
  rewrite (b64_add_int (0 + a * 12 + b * 6) (c * 1)) by lia.
  f_equal. lia.
Qed.

(** ** [useCanjes] in binary64 *)

Lemma b64_useCanjes_unguarded p m :
  guard p m = false ->
  let planchas := (Number p || 0%Z)%num in
  let u := B64.div (Number m || 0%Z)%num planchas in
  let ps := fst (B64.allocate planchas) in
  let rows := B64.buildRows planchas u ps (snd (B64.allocate planchas)) in
  B64.useCanjes p m =
    mkResult u ps rows
      (mkTotals (B64.round2 (fst (B64.controlTotals rows)))
                (B64.round2 (snd (B64.controlTotals rows)))
                (B64.totalPremios ps)).
Proof.
  intros H. unfold B64.useCanjes. fold (guard p m). rewrite H.
  cbn zeta. now destruct (B64.allocate _).
Qed.

Lemma guard_int n m :
  (0 < n)%Z -> ((Number m || 0%Z) <? 0%Z)%num = false ->
  guard (of_Z n) m = false /\ (Number (of_Z n) || 0%Z)%num = of_Z n.
Proof.
  intros Hn Hm.
  assert (Hq : 0 < inject_Z n) by (apply inject_Z_pos; lia).
  assert (E : (Number (of_Z n) || 0%Z)%num = of_Z n) by (apply or0_pos, Hq).
  split; [|exact E]. unfold guard. rewrite E, Hm, orb_false_r.
  cbn [le of_Z]. apply Qle_bool_false. exact Hq.
Qed.


(** C4. The allocation goes tier by tier in the fixed order 50, 35, 10:
    each tier takes [Math.floor(remaining / size)] of what the tiers before
    it left, on every number.  On an integer count up to 2^52 these are the
    integer quotients.  A count of 84 gives (50: 1, 35: 0, 10: 3) and
    remainder 4: the size-35 tier gets nothing. *)
Theorem b64_greedy_descending_order (planchas : number) (n : Z) :
  (0 <= n <= 2 ^ 52)%Z ->
  (let c1 := Math_floor (B64.div planchas 50%Z) in
   let r1 := B64.sub planchas (B64.mul c1 50%Z) in
   let c2 := Math_floor (B64.div r1 35%Z) in
   let r2 := B64.sub r1 (B64.mul c2 35%Z) in
   let c3 := Math_floor (B64.div r2 10%Z) in
   let r3 := B64.sub r2 (B64.mul c3 10%Z) in
   B64.allocate planchas =
     ([ mkPremio 3 "Escala 3" 50%Z 12%Z c1;
        mkPremio 2 "Escala 2" 35%Z 6%Z c2;
        mkPremio 1 "Escala 1" 10%Z 1%Z c3 ], r3)) /\
  B64.allocate (of_Z n) =
    ([ mkPremio 3 "Escala 3" 50%Z 12%Z (n / 50)%Z;
       mkPremio 2 "Escala 2" 35%Z 6%Z (n mod 50 / 35)%Z;
       mkPremio 1 "Escala 1" 10%Z 1%Z ((n mod 50) mod 35 / 10)%Z ],
     of_Z (((n mod 50) mod 35) mod 10)) /\
  B64.allocate 84%Z =
    ([ mkPremio 3 "Escala 3" 50%Z 12%Z 1%Z;
       mkPremio 2 "Escala 2" 35%Z 6%Z 0%Z;
       mkPremio 1 "Escala 1" 10%Z 1%Z 3%Z ], of_Z 4).
Proof.
  intros Hn. split; [reflexivity | split].
  - exact (b64_allocate_int n Hn).
  - exact (b64_allocate_int 84 ltac:(lia)).
Qed.

Lemma b64_greedy_descending_order_witness :
  (0 <= 84 <= 2 ^ 52)%Z /\
  B64.allocate 84%Z =
    ([ mkPremio 3 "Escala 3" 50%Z 12%Z 1%Z;
       mkPremio 2 "Escala 2" 35%Z 6%Z 0%Z;
       mkPremio 1 "Escala 1" 10%Z 1%Z 3%Z ], of_Z 4).
Proof.
  split; [lia|].
  exact (proj1 (proj2 (b64_greedy_descending_order NaN 84 ltac:(lia)))).
Defined.






(** At count = 7 the binary64 program too has a row labelled with the
    size-10 tier, whose count is 0. *)
Lemma b64_small_count_row_of_zero_tier :
  In (mkPremio 1 "Escala 1" 10%Z 1%Z 0%Z)
     (premios (B64.useCanjes 7%Z 700%Z)) /\
  map label (aplicativoRows (B64.useCanjes 7%Z 700%Z)) = ["Escala 1"%string] /\
  noZeroTierRow (B64.useCanjes 7%Z 700%Z) = false.
Proof.
  vm_compute. split; [right; right; left; reflexivity | split; reflexivity].
Qed.

(** ** Bounds and optimality of the binary64 allocation *)

(** X8. For every integer count with 0 <= count <= 2^52 no allocation
    count is negative, the size-35 tier is awarded at most once, the
    size-10 tier at most three times, and at most once when the size-35
    tier is awarded. *)
Theorem b64_lower_tier_counts_are_bounded (n : Z) :
  (0 <= n <= 2 ^ 52)%Z ->
  exists a b c : Z,
    fst (B64.allocate (of_Z n)) = premiosOf a b c /\
    (0 <= a)%Z /\ (0 <= b <= 1)%Z /\ (0 <= c <= 3)%Z /\
    (b = 1%Z -> (c <= 1)%Z).
Proof.
  intros Hn.
  destruct (int_allocation_facts n ltac:(lia)) as (A & B & C & _ & D & _).
  cbn zeta in *.
  exists (n / 50)%Z, (n mod 50 / 35)%Z, ((n mod 50) mod 35 / 10)%Z.
  rewrite (b64_allocate_int n Hn). repeat split; lia.
Qed.

Lemma b64_lower_tier_counts_are_bounded_witness :
  (0 <= 84 <= 2 ^ 52)%Z /\
  exists a b c : Z,
    fst (B64.allocate (of_Z 84)) = premiosOf a b c /\
    (0 <= a)%Z /\ (0 <= b <= 1)%Z /\ (0 <= c <= 3)%Z /\
    (b = 1%Z -> (c <= 1)%Z).
Proof.
  split; [lia|]. apply (b64_lower_tier_counts_are_bounded 84). lia.
Defined.

(** X9. The greedy allocation maximises the weighted score: for an
    integer count with 0 < count <= 2^52 and an amount the guard lets
    through, any non-negative integers a, b, c with
    50 a + 35 b + 10 c <= count score 12 a + 6 b + c at most the reported
    total. *)
Theorem b64_greedy_score_is_maximal (n : Z) (m : number) (a b c : Z) :
  (0 < n <= 2 ^ 52)%Z -> ((Number m || 0%Z) <? 0%Z)%num = false ->
  (0 <= a)%Z -> (0 <= b)%Z -> (0 <= c)%Z ->
  (50 * a + 35 * b + 10 * c <= n)%Z ->
  (of_Z (12 * a + 6 * b + c)
     <=? t_premios (totales (B64.useCanjes (of_Z n) m)))%num = true.
Proof.
  intros Hn Hm Ha Hb Hc Hfit.
  destruct (guard_int n m (proj1 Hn) Hm) as [G E].
  rewrite (b64_useCanjes_unguarded _ _ G). cbn zeta. rewrite E.
  rewrite (b64_allocate_int n) by lia. cbn [fst snd totales t_premios].
  destruct (int_allocation_facts n ltac:(lia)) as (A & B & C & _).
  cbn zeta in A, B, C.
  assert (H52 : (2 ^ 52 = 4503599627370496)%Z) by reflexivity.
  assert (H47 : (2 ^ 47 = 140737488355328)%Z) by reflexivity.
  assert (Hq : (n / 50 <= 2 ^ 47)%Z) by (apply Z.div_le_upper_bound; lia).
  rewrite b64_totalPremios_int by lia.
  cbn [le of_Z]. apply Qle_bool_iff. rewrite <- Zle_Qle.
  apply int_score_optimal; lia.
Qed.

Lemma b64_greedy_score_is_maximal_witness :
  (0 < 105 <= 2 ^ 52)%Z /\ (50 * 0 + 35 * 3 + 10 * 0 <= 105)%Z /\
  (of_Z (12 * 0 + 6 * 3 + 0)
     <=? t_premios (totales (B64.useCanjes 105%Z 1000%Z)))%num = true.
Proof.
  split; [lia|]. split; [lia|].
  apply (b64_greedy_score_is_maximal 105 1000%Z 0 3 0); solve [lia | reflexivity].
Defined.

(** ** Error analysis of the binary64 operations *)

Lemma eta_pos : 0 < eta.
Proof. apply pow2_pos. Qed.

Lemma eta_small : eta <= 1 # 1000000.
Proof.
  unfold eta. apply Qle_trans with (2 ^ (-20)); [apply pow2_le; lia|].
  vm_compute. discriminate.
Qed.

Lemma pow2_1000 : 2 ^ 104 <= 2 ^ 1000 /\ 2 ^ 1001 < 2 ^ B64.emax.
Proof. split; [apply pow2_le | apply pow2_lt; unfold B64.emax]; lia. Qed.

(** Rounding a non-negative value moves it by at most [u53 * x + eta]. *)
Lemma rnd_approx x :
  0 <= x -> x <= 2 ^ 1000 -> approx u53 eta (B64.rnd x) x.
Proof.
  intros H0 Hbig. pose proof eta_pos as Heta.
  destruct (Qlt_le_dec 0 x) as [Hpos|Hneg].
  2:{ exists 0. rewrite rnd_zero by lra. split; [reflexivity|].
      split; [lra|]. apply Qabs_Qle_condition. unfold u53.
      split; lra. }
  destruct (log2floor_spec x Hpos) as [Hlo Hhi].
  pose proof (roundPos_error x) as Herr.
  pose proof (roundPos_nonneg x H0) as Hnn.
  set (e := B64.log2floor x) in *.
  assert (HE : 2 ^ B64.ulpExp x <= 2 * u53 * x + 2 * eta).
  { unfold B64.ulpExp. fold e.
    assert (H52 : 2 ^ (e - 52) <= 2 * u53 * x).
    { replace (e - 52)%Z with (e + -52)%Z by lia. rewrite pow2_plus.
      change (2 ^ (-52)) with (1 # 4503599627370496). unfold u53.
      set (p := 2 ^ e) in *. clearbody p. lra. }
    assert (Hmin : 2 ^ B64.emin == 2 * eta).
    { unfold eta, B64.emin. replace (-1074)%Z with (-1075 + 1)%Z by lia.
      rewrite pow2_succ. reflexivity. }
    pose proof (pow2_pos (e - 52)). pose proof (pow2_pos B64.emin).
    destruct (Z.max_spec (e - 52) B64.emin) as [[_ ->]|[_ ->]]; lra. }
  set (E := B64.ulpExp x) in *. clearbody E.
  remember (B64.roundPos x) as v eqn:Ev.
  apply Qabs_Qle_condition in Herr.
  assert (Hhalf : 2 ^ E / 2 <= u53 * x + eta).
  { apply Qle_shift_div_r; lra. }
  destruct pow2_1000 as [_ Hmax].
  assert (Hv : v < 2 ^ B64.emax).
  { assert (2 ^ 1001 == 2 * 2 ^ 1000) by (rewrite <- pow2_succ; reflexivity).
    pose proof eta_small. unfold u53 in *. lra. }
  exists (Qred v). split; [rewrite Ev in *; apply rnd_pos; assumption|].
  rewrite Qred_correct. split; [assumption|].
  apply Qabs_Qle_condition. split; lra.
Qed.

Lemma approx_exact a x : holds a x -> 0 <= x -> approx 0 0 a x.
Proof.
  intros (y & -> & Hy) Hx. exists y. split; [reflexivity|].
  split; [lra|]. apply Qabs_Qle_condition. split; lra.
Qed.

Lemma approx_eq rho alpha a x x' :
  approx rho alpha a x -> x == x' -> approx rho alpha a x'.
Proof.
  intros (y & -> & Hy & H) E. exists y. split; [reflexivity|].
  split; [assumption|]. now rewrite <- E.
Qed.

Lemma approx_weaken rho alpha rho' alpha' a x :
  approx rho alpha a x -> 0 <= x -> rho <= rho' -> alpha <= alpha' ->
  approx rho' alpha' a x.
Proof.
  intros (y & -> & Hy & H) Hx Hr Ha. exists y. split; [reflexivity|].
  split; [assumption|].
  assert (rho * x <= rho' * x) by (apply Qmult_le_compat_r; assumption).
  lra.
Qed.

Lemma prod_err x y ya yb ea eb :
  0 <= x -> 0 <= yb ->
  Qabs (ya - x) <= ea -> Qabs (yb - y) <= eb ->
  Qabs (ya * yb - x * y) <= ea * (y + eb) + x * eb.
Proof.
  intros Hx Hyb Ha Hb.
  apply Qabs_Qle_condition in Ha. apply Qabs_Qle_condition in Hb.
  apply Qabs_Qle_condition.
  assert (E : ya * yb - x * y == (ya - x) * yb + x * (yb - y)) by ring.
  rewrite E.
  assert (0 <= ea) by lra.
  assert (H1 : (ya - x) * yb <= ea * yb) by (apply Qmult_le_compat_r; lra).
  assert (H2 : - ea * yb <= (ya - x) * yb).
  { assert (0 <= (ya - x + ea) * yb) by (apply Qmult_le_0_compat; lra). lra. }
  assert (H3 : ea * yb <= ea * (y + eb)).
  { assert (0 <= ea * (y + eb - yb)) by (apply Qmult_le_0_compat; lra). lra. }
  assert (H4 : x * (yb - y) <= x * eb).
  { assert (0 <= x * (eb - (yb - y))) by (apply Qmult_le_0_compat; lra). lra. }
  assert (H5 : - (x * eb) <= x * (yb - y)).
  { assert (0 <= x * (yb - y + eb)) by (apply Qmult_le_0_compat; lra). lra. }
  split; lra.
Qed.

Lemma Bnd_big : (2 * Bnd + 1) * (2 * Bnd + 1) <= 2 ^ 1000.
Proof.
  destruct pow2_1000 as [H _].
  apply Qle_trans with (2 ^ 104); [|exact H]. vm_compute. discriminate.
Qed.

Lemma approx_mul r1 a1 r2 a2 a b x y :
  approx r1 a1 a x -> approx r2 a2 b y ->
  smallErr r1 a1 -> smallErr r2 a2 ->
  0 <= x -> x <= Bnd -> 0 <= y -> y <= Bnd ->
  approx (mulRho r1 r2) (mulAlpha r1 a1 r2 a2) (B64.mul a b) (x * y).
Proof.
  intros (ya & -> & Hya & Ha) (yb & -> & Hyb & Hb)
         (R1 & R1' & A1 & A1') (R2 & R2' & A2 & A2') Hx HxB Hy HyB.
  pose proof eta_pos as Heta.
  assert (HB : 0 < Bnd) by reflexivity.
  unfold B64.mul, JS.mul, B64.b64.
  set (z := Qred (ya * yb)).
  assert (Ez : z == ya * yb) by apply Qred_correct.
  pose proof (prod_err x y ya yb _ _ Hx Hyb Ha Hb) as HD.
  (* monomial facts *)
  assert (M1 : 0 <= x * y) by (apply Qmult_le_0_compat; assumption).
  assert (M2 : r1 * x <= x) by (assert (0 <= (1 - r1) * x) by (apply Qmult_le_0_compat; lra); lra).
  assert (M3 : r2 * y <= y) by (assert (0 <= (1 - r2) * y) by (apply Qmult_le_0_compat; lra); lra).
  assert (M4 : 0 <= r1 * x) by (apply Qmult_le_0_compat; assumption).
  assert (M5 : 0 <= r2 * y) by (apply Qmult_le_0_compat; assumption).
  assert (G1 : a1 * (y * (1 + r2)) <= a1 * (Bnd * (1 + r2))).
  { assert (0 <= a1 * ((Bnd - y) * (1 + r2))).
    { apply Qmult_le_0_compat; [assumption|]. apply Qmult_le_0_compat; lra. }
    lra. }
  assert (G2 : a2 * (x * (1 + r1)) <= a2 * (Bnd * (1 + r1))).
  { assert (0 <= a2 * ((Bnd - x) * (1 + r1))).
    { apply Qmult_le_0_compat; [assumption|]. apply Qmult_le_0_compat; lra. }
    lra. }
  assert (ED : (r1 * x + a1) * (y + (r2 * y + a2)) + x * (r2 * y + a2)
               == x * y * (r1 + r2 + r1 * r2)
                  + a1 * (y * (1 + r2)) + a1 * a2 + a2 * (x * (1 + r1))) by ring.
  rewrite ED in HD. clear ED.
  apply Qabs_Qle_condition in HD.
  apply Qabs_Qle_condition in Ha. apply Qabs_Qle_condition in Hb.
  assert (Hz0 : 0 <= z) by (rewrite Ez; apply Qmult_le_0_compat; assumption).
  assert (Hzbig : z <= 2 ^ 1000).
  { pose proof Bnd_big as HBB. rewrite Ez.
    apply Qle_trans with ((2 * Bnd + 1) * (2 * Bnd + 1)); [|exact HBB].
    apply Qmult_le_compat_nonneg; split; lra. }
  destruct (rnd_approx z Hz0 Hzbig) as (w & -> & Hw & Hwz).
  exists w. split; [reflexivity|]. split; [assumption|].
  apply Qabs_Qle_condition in Hwz. rewrite Ez in Hwz.
  unfold mulRho, mulAlpha, u53 in *.
  apply Qabs_Qle_condition.
  set (xy := x * y) in *.
  assert (EA : ya * yb - x * y == ya * yb - xy) by reflexivity.
  split; lra.
Qed.

Lemma approx_add r1 a1 r2 a2 a b x y :
  approx r1 a1 a x -> approx r2 a2 b y ->
  smallErr r1 a1 -> smallErr r2 a2 ->
  0 <= x -> x <= Bnd -> 0 <= y -> y <= Bnd ->
  approx (addRho r1 r2) (addAlpha a1 a2) (B64.add a b) (x + y).
Proof.
  intros (ya & -> & Hya & Ha) (yb & -> & Hyb & Hb)
         (R1 & R1' & A1 & A1') (R2 & R2' & A2 & A2') Hx HxB Hy HyB.
  pose proof eta_pos as Heta.
  assert (HB : 0 < Bnd) by reflexivity.
  unfold B64.add, JS.add, B64.b64.
  set (z := Qred (ya + yb)).
  assert (Ez : z == ya + yb) by apply Qred_correct.
  assert (M2 : r1 * x <= x) by (assert (0 <= (1 - r1) * x) by (apply Qmult_le_0_compat; lra); lra).
  assert (M3 : r2 * y <= y) by (assert (0 <= (1 - r2) * y) by (apply Qmult_le_0_compat; lra); lra).
  assert (M4 : 0 <= r1 * x) by (apply Qmult_le_0_compat; assumption).
  assert (M5 : 0 <= r2 * y) by (apply Qmult_le_0_compat; assumption).
  assert (M6 : 0 <= r1 * y) by (apply Qmult_le_0_compat; assumption).
  assert (M7 : 0 <= r2 * x) by (apply Qmult_le_0_compat; assumption).
  apply Qabs_Qle_condition in Ha. apply Qabs_Qle_condition in Hb.
  assert (Hz0 : 0 <= z) by lra.
  assert (Hzbig : z <= 2 ^ 1000).
  { pose proof Bnd_big as HBB.
    assert ((2 * Bnd + 1) * (2 * Bnd + 1) == 4 * Bnd * Bnd + 4 * Bnd + 1) by ring.
    assert (1 <= Bnd * Bnd) by (vm_compute; discriminate).
    lra. }
  destruct (rnd_approx z Hz0 Hzbig) as (w & -> & Hw & Hwz).
  exists w. split; [reflexivity|]. split; [assumption|].
  apply Qabs_Qle_condition in Hwz. rewrite Ez in Hwz.
  unfold addRho, addAlpha, u53 in *.
  apply Qabs_Qle_condition. split; lra.
Qed.

Lemma approx_div_exact a b x y :
  holds a x -> holds b y -> 0 <= x -> 0 < y -> x / y <= 2 ^ 1000 ->
  approx u53 eta (B64.div a b) (x / y).
Proof.
  intros (x' & -> & Hx') (y' & -> & Hy') Hx Hy Hbig.
  unfold B64.div, JS.div, B64.b64.
  rewrite (Qzero_false y') by lra.
  assert (E : Qred (x' / y') == x / y) by (now rewrite Qred_correct, Hx', Hy').
  apply (approx_eq _ _ _ (Qred (x' / y'))); [|exact E].
  apply rnd_approx; rewrite E; [|assumption].
  apply Qle_shift_div_l; lra.
Qed.

Lemma approx_int z : (0 <= z)%Z -> approx 0 0 (of_Z z) (inject_Z z).
Proof.
  intros H. apply approx_exact; [apply holds_of_Z|].
  change 0 with (inject_Z 0). now rewrite <- Zle_Qle.
Qed.

(** ** The control totals in binary64 *)

Lemma b64_buildRows_premiosOf a b c planchas u rem :
  (0 <= a)%Z -> (0 <= b)%Z -> (0 <= c)%Z ->
  B64.buildRows planchas u (premiosOf a b c) rem =
  if (a =? 0)%Z && (b =? 0)%Z && (c =? 0)%Z
  then [ mkRow "Escala 1" 1%Z planchas (B64.mul planchas u) ]
  else B64.tierRow "Escala 3" 50 a ((b =? 0)%Z && (c =? 0)%Z) rem u
       ++ B64.tierRow "Escala 2" 35 b (c =? 0)%Z rem u
       ++ B64.tierRow "Escala 1" 10 c true rem u.
Proof.
  intros Ha Hb Hc.
  destruct a as [|a|a], b as [|b|b], c as [|c|c]; try lia; reflexivity.
Qed.

Lemma levels_small :
  smallErr 0 0 /\ smallErr u53 eta /\ smallErr qtyRho qtyAlpha /\
  smallErr amtRho amtAlpha.
Proof. repeat apply conj; vm_compute; discriminate. Qed.

Lemma Bnd_int z : (z <= 2 ^ 50)%Z -> inject_Z z <= Bnd.
Proof.
  intros H. change Bnd with (inject_Z (2 ^ 50)). now rewrite <- Zle_Qle.
Qed.

Lemma inject_Z_nonneg z : (0 <= z)%Z -> 0 <= inject_Z z.
Proof. intros H. change 0 with (inject_Z 0). now rewrite <- Zle_Qle. Qed.

Lemma anchor_value s k r :
  (0 <= s <= 50)%Z -> (0 < k)%Z -> (0 <= r <= 9)%Z ->
  0 <= inject_Z r / inject_Z k /\ inject_Z r / inject_Z k <= 9 /\
  0 <= inject_Z s /\ inject_Z s <= 50.
Proof.
  intros Hs Hk Hr.
  assert (K : 1 <= inject_Z k) by (change 1 with (inject_Z 1); rewrite <- Zle_Qle; lia).
  assert (R0 : 0 <= inject_Z r) by (apply inject_Z_nonneg; lia).
  assert (R9 : inject_Z r <= 9) by (change 9 with (inject_Z 9); rewrite <- Zle_Qle; lia).
  assert (S0 : 0 <= inject_Z s) by (apply inject_Z_nonneg; lia).
  assert (S5 : inject_Z s <= 50) by (change 50 with (inject_Z 50); rewrite <- Zle_Qle; lia).
  repeat split; try assumption.
  - apply Qle_shift_div_l; lra.
  - apply Qle_shift_div_r; [lra|].
    assert (0 <= 9 * (inject_Z k - 1)) by lra. lra.
Qed.

Lemma qty_plain s k :
  (0 <= s)%Z -> (0 < k)%Z ->
  approx qtyRho qtyAlpha (of_Z s) (inject_Z s + inject_Z 0 / inject_Z k).
Proof.
  intros Hs Hk.
  apply (approx_eq _ _ _ (inject_Z s)).
  - apply (approx_weaken 0 0); [now apply approx_int | now apply inject_Z_nonneg | |];
      vm_compute; discriminate.
  - change (inject_Z 0) with 0. unfold Qdiv. ring.
Qed.

Lemma qty_anchor s k r :
  (0 <= s <= 50)%Z -> (0 < k)%Z -> (0 <= r <= 9)%Z ->
  approx qtyRho qtyAlpha (B64.add (of_Z s) (B64.div (of_Z r) (of_Z k)))
         (inject_Z s + inject_Z r / inject_Z k).
Proof.
  intros Hs Hk Hr.
  destruct (anchor_value s k r Hs Hk Hr) as (V0 & V9 & S0 & S5).
  destruct levels_small as (L0 & Lu & _).
  assert (HB : 60 <= Bnd) by (vm_compute; discriminate).
  assert (K : 0 < inject_Z k) by (apply inject_Z_pos; lia).
  unfold qtyRho, qtyAlpha.
  apply approx_add; try assumption; try lra.
  - apply approx_int. lia.
  - apply approx_div_exact; try apply holds_of_Z; try assumption.
    + apply inject_Z_nonneg. lia.
    + destruct pow2_1000 as [P _].
      apply Qle_trans with (2 ^ 104); [|exact P].
      apply Qle_trans with 9; [assumption | vm_compute; discriminate].
Qed.

Lemma row_value s k r :
  (0 < k)%Z ->
  (inject_Z s + inject_Z r / inject_Z k) * inject_Z k == inject_Z (s * k + r).
Proof.
  intros Hk. rewrite inject_Z_plus, inject_Z_mult. field.
  intros E. apply inject_Z_pos in Hk. lra.
Qed.

Lemma row_planks P s k r :
  approx qtyRho qtyAlpha P (inject_Z s + inject_Z r / inject_Z k) ->
  (0 <= s <= 50)%Z -> (0 <= r <= 9)%Z -> (0 < k <= 2 ^ 44)%Z ->
  approx termRho termAlpha (B64.mul P (of_Z k)) (inject_Z (s * k + r) * 1).
Proof.
  intros HP Hs Hr Hk.
  destruct (anchor_value s k r Hs (proj1 Hk) Hr) as (V0 & V9 & S0 & S5).
  destruct levels_small as (L0 & Lu & Lq & _).
  assert (HB : 60 <= Bnd) by (vm_compute; discriminate).
  assert (H44 : (2 ^ 44 <= 2 ^ 50)%Z) by (vm_compute; discriminate).
  apply (approx_eq _ _ _ ((inject_Z s + inject_Z r / inject_Z k) * inject_Z k)).
  - unfold termRho, termAlpha.
    apply approx_mul; try assumption; try lra.
    + apply approx_int. lia.
    + apply inject_Z_nonneg. lia.
    + apply Bnd_int. lia.
  - rewrite row_value by lia. ring.
Qed.

Lemma row_amount u q P s k r :
  approx u53 eta u q -> 0 <= q -> q <= 17592186044416 ->
  approx qtyRho qtyAlpha P (inject_Z s + inject_Z r / inject_Z k) ->
  (0 <= s <= 50)%Z -> (0 <= r <= 9)%Z -> (0 < k <= 2 ^ 44)%Z ->
  approx amtTermRho amtTermAlpha (B64.mul (B64.mul P u) (of_Z k))
         (inject_Z (s * k + r) * q).
Proof.
  intros Hu Hq0 Hq HP Hs Hr Hk.
  destruct (anchor_value s k r Hs (proj1 Hk) Hr) as (V0 & V9 & S0 & S5).
  destruct levels_small as (L0 & Lu & Lq & La).
  assert (HB : 60 <= Bnd) by (vm_compute; discriminate).
  assert (H44 : (2 ^ 44 <= 2 ^ 50)%Z) by (vm_compute; discriminate).
  assert (Q44 : 17592186044416 <= Bnd) by (vm_compute; discriminate).
  assert (Q60 : 60 * 17592186044416 <= Bnd) by (vm_compute; discriminate).
  assert (E : (inject_Z s + inject_Z r / inject_Z k) * q * inject_Z k
              == inject_Z (s * k + r) * q).
  { rewrite <- (row_value s k r) by lia. ring. }
  assert (P0 : 0 <= inject_Z s + inject_Z r / inject_Z k) by lra.
  assert (P60 : inject_Z s + inject_Z r / inject_Z k <= 60) by lra.
  set (p := inject_Z s + inject_Z r / inject_Z k) in *. clearbody p.
  apply (approx_eq _ _ _ (p * q * inject_Z k)); [|exact E].
  unfold amtTermRho, amtTermAlpha.
  apply approx_mul; try assumption.
  - unfold amtRho, amtAlpha. apply approx_mul; try assumption; lra.
  - apply approx_int. lia.
  - apply Qmult_le_0_compat; lra.
  - apply Qle_trans with (60 * 17592186044416); [|exact Q60].
    apply Qmult_le_compat_nonneg; split; lra.
  - apply inject_Z_nonneg. lia.
  - apply Bnd_int. lia.
Qed.

Ltac sum_levels :=
  unfold smallErr, sumRho, sumAlpha, addRho, addAlpha, u53 in *;
  pose proof eta_pos; pose proof eta_small; repeat split; lra.

Lemma sum1 r al T1 z1 q :
  0 <= r -> r <= 1 # 8 -> 0 <= al -> al <= 1 # 8 ->
  approx r al T1 (inject_Z z1 * q) ->
  (0 <= z1)%Z -> 0 <= q -> inject_Z z1 * q <= Bnd ->
  approx (sumRho r) (sumAlpha al) (B64.add 0%Z T1) (inject_Z z1 * q).
Proof.
  intros R0 R8 A0 A8 H1 Z1 Hq HB.
  assert (B0 : 0 < Bnd) by reflexivity.
  assert (T1' : 0 <= inject_Z z1 * q)
    by (apply Qmult_le_0_compat; [now apply inject_Z_nonneg | assumption]).
  apply (approx_eq _ _ _ (inject_Z 0 + inject_Z z1 * q));
    [|change (inject_Z 0) with 0; ring].
  apply (approx_weaken (addRho 0 r) (addAlpha 0 al));
    [ | change (inject_Z 0) with 0; lra | sum_levels | sum_levels ].
  apply approx_add; try assumption;
    try (change (inject_Z 0) with 0; lra); try sum_levels.
  apply approx_int. lia.
Qed.

Lemma sum2 r al T1 T2 z1 z2 q :
  0 <= r -> r <= 1 # 8 -> 0 <= al -> al <= 1 # 8 ->
  approx r al T1 (inject_Z z1 * q) -> approx r al T2 (inject_Z z2 * q) ->
  (0 <= z1)%Z -> (0 <= z2)%Z -> 0 <= q ->
  inject_Z (z1 + z2) * q <= Bnd ->
  approx (sumRho r) (sumAlpha al) (B64.add (B64.add 0%Z T1) T2)
         (inject_Z (z1 + z2) * q).
Proof.
  intros R0 R8 A0 A8 H1 H2 Z1 Z2 Hq HB.
  assert (B0 : 0 < Bnd) by reflexivity.
  assert (T1' : 0 <= inject_Z z1 * q)
    by (apply Qmult_le_0_compat; [now apply inject_Z_nonneg | assumption]).
  assert (T2' : 0 <= inject_Z z2 * q)
    by (apply Qmult_le_0_compat; [now apply inject_Z_nonneg | assumption]).
  assert (E : inject_Z (z1 + z2) * q == inject_Z z1 * q + inject_Z z2 * q)
    by (rewrite inject_Z_plus; ring).
  rewrite E in HB.
  apply (approx_eq _ _ _ (inject_Z 0 + inject_Z z1 * q + inject_Z z2 * q));
    [|rewrite E; change (inject_Z 0) with 0; ring].
  apply (approx_weaken (addRho (addRho 0 r) r) (addAlpha (addAlpha 0 al) al));
    [ | change (inject_Z 0) with 0; lra | sum_levels | sum_levels ].
  apply approx_add; try assumption;
    try (change (inject_Z 0) with 0; lra); try sum_levels.
  apply approx_add; try assumption;
    try (change (inject_Z 0) with 0; lra); try sum_levels.
  apply approx_int. lia.
Qed.

Lemma sum3 r al T1 T2 T3 z1 z2 z3 q :
  0 <= r -> r <= 1 # 8 -> 0 <= al -> al <= 1 # 8 ->
  approx r al T1 (inject_Z z1 * q) -> approx r al T2 (inject_Z z2 * q) ->
  approx r al T3 (inject_Z z3 * q) ->
  (0 <= z1)%Z -> (0 <= z2)%Z -> (0 <= z3)%Z -> 0 <= q ->
  inject_Z (z1 + z2 + z3) * q <= Bnd ->
  approx (sumRho r) (sumAlpha al)
         (B64.add (B64.add (B64.add 0%Z T1) T2) T3)
         (inject_Z (z1 + z2 + z3) * q).
Proof.
  intros R0 R8 A0 A8 H1 H2 H3 Z1 Z2 Z3 Hq HB.
  assert (B0 : 0 < Bnd) by reflexivity.
  assert (T1' : 0 <= inject_Z z1 * q)
    by (apply Qmult_le_0_compat; [now apply inject_Z_nonneg | assumption]).
  assert (T2' : 0 <= inject_Z z2 * q)
    by (apply Qmult_le_0_compat; [now apply inject_Z_nonneg | assumption]).
  assert (T3' : 0 <= inject_Z z3 * q)
    by (apply Qmult_le_0_compat; [now apply inject_Z_nonneg | assumption]).
  assert (E : inject_Z (z1 + z2 + z3) * q
              == inject_Z z1 * q + inject_Z z2 * q + inject_Z z3 * q)
    by (rewrite !inject_Z_plus; ring).
  rewrite E in HB.
  apply (approx_eq _ _ _
           (inject_Z 0 + inject_Z z1 * q + inject_Z z2 * q + inject_Z z3 * q));
    [|rewrite E; change (inject_Z 0) with 0; ring].
  unfold sumRho, sumAlpha.
  apply approx_add; try assumption;
    try (change (inject_Z 0) with 0; lra); try sum_levels.
  apply approx_add; try assumption;
    try (change (inject_Z 0) with 0; lra); try sum_levels.
  apply approx_add; try assumption;
    try (change (inject_Z 0) with 0; lra); try sum_levels.
  apply approx_int. lia.
Qed.

Lemma term_levels :
  (0 <= termRho /\ termRho <= 1 # 8 /\ 0 <= termAlpha /\ termAlpha <= 1 # 8) /\
  (0 <= amtTermRho /\ amtTermRho <= 1 # 8 /\
   0 <= amtTermAlpha /\ amtTermAlpha <= 1 # 8).
Proof. repeat apply conj; apply Qle_bool_iff; vm_compute; reflexivity. Qed.

Ltac qty_tac :=
  lazymatch goal with
  | |- approx _ _ (B64.add _ _) _ => apply qty_anchor
  | |- approx _ _ _ _ => apply qty_plain
  end; lia.

Ltac sum_tac L :=
  let R0 := constr:(proj1 L) in
  let R8 := constr:(proj1 (proj2 L)) in
  let A0 := constr:(proj1 (proj2 (proj2 L))) in
  let A8 := constr:(proj2 (proj2 (proj2 L))) in
  lazymatch goal with
  | |- approx _ _ (B64.add (B64.add (B64.add _ _) _) _) _ =>
      eapply (sum3 _ _ _ _ _ _ _ _ _ R0 R8 A0 A8)
  | |- approx _ _ (B64.add (B64.add _ _) _) _ =>
      eapply (sum2 _ _ _ _ _ _ _ R0 R8 A0 A8)
  | |- approx _ _ (B64.add _ _) _ =>
      eapply (sum1 _ _ _ _ _ R0 R8 A0 A8)
  end.

Lemma b64_controlTotals_premiosOf a b c r n u q :
  (0 <= a)%Z -> (0 <= b)%Z -> (0 <= c)%Z -> (0 <= r <= 9)%Z ->
  (a * 50 + b * 35 + c * 10 + r = n)%Z -> (0 < n <= 1000000000000)%Z ->
  approx u53 eta u q -> 0 <= q -> q <= 17592186044416 ->
  inject_Z n * q <= Bnd ->
  let rows := B64.buildRows (of_Z n) u (premiosOf a b c) (of_Z r) in
  approx (sumRho termRho) (sumAlpha termAlpha)
         (fst (B64.controlTotals rows)) (inject_Z n) /\
  approx (sumRho amtTermRho) (sumAlpha amtTermAlpha)
         (snd (B64.controlTotals rows)) (inject_Z n * q).
Proof.
  intros Ha Hb Hc Hr Hsum Hn Hu Hq0 Hq HBq rows. subst rows.
  rewrite b64_buildRows_premiosOf by assumption.
  assert (H44 : (2 ^ 44 = 17592186044416)%Z) by reflexivity.
  assert (H50 : (2 ^ 50 = 1125899906842624)%Z) by reflexivity.
  assert (HB1 : forall z, z = n -> inject_Z z * 1 <= Bnd).
  { intros z ->. rewrite Qmult_1_r. apply Bnd_int. lia. }
  assert (HB2 : forall z, z = n -> inject_Z z * q <= Bnd).
  { intros z ->. assumption. }
  assert (Hrem : (of_Z r >? 0%Z)%num = false -> r = 0%Z).
  { intros Hgt. destruct (Z.eq_dec r 0) as [E|E]; [exact E|].
    assert (Hpos : 0 < inject_Z r) by (apply inject_Z_pos; lia).
    apply (gt0_holds _ _ (holds_of_Z r)) in Hpos. congruence. }
  destruct (of_Z r >? 0%Z)%num eqn:Hgt;
    [ | specialize (Hrem eq_refl) ];
    destruct a as [|a|a], b as [|b|b], c as [|c|c]; try lia.
  all: cbn [B64.tierRow Z.eqb andb app]; rewrite ?Hgt;
    cbn [B64.controlTotals fold_left fst snd planchasPorRep repetir
         montoPorRep andb].
  all: split.
  all: (eapply approx_eq;
        [ lazymatch goal with
          | |- approx (sumRho termRho) _ _ _ => sum_tac (proj1 term_levels)
          | |- approx (sumRho amtTermRho) _ _ _ => sum_tac (proj2 term_levels)
          end;
          lazymatch goal with
          | |- approx _ _ (B64.mul (B64.mul _ _) _) _ =>
              eapply (row_amount _ _ _ _ _ _ Hu Hq0 Hq); [qty_tac | lia ..]
          | |- approx _ _ _ _ => eapply row_planks; [qty_tac | lia ..]
          | |- (_ <= _)%Z => lia
          | |- inject_Z _ * _ <= Bnd => first [apply HB1; lia | apply HB2; lia]
          | |- 0 <= _ => first [exact Hq0 | lra]
          end
        | ]).
  all: match goal with
       | |- inject_Z ?z * _ == _ => replace z with n by lia
       end; ring.
Qed.


(** The two sums of lines 94-101 and their exact values, and the totals
    the result reports. *)
Lemma b64_totals_approx (n : Z) (m : Q) :
  (0 < n <= 1000000000000)%Z -> 0 <= m -> m <= 1000000000000 ->
  let r := B64.useCanjes (of_Z n) (Fin m) in
  let tot := B64.controlTotals (aplicativoRows r) in
  approx (sumRho termRho) (sumAlpha termAlpha) (fst tot) (inject_Z n) /\
  approx (sumRho amtTermRho) (sumAlpha amtTermAlpha) (snd tot) m /\
  t_planchas (totales r) = B64.round2 (fst tot) /\
  t_monto (totales r) = B64.round2 (snd tot).
Proof.
  intros Hn Hm0 Hm r tot. subst tot r.
  pose proof (holds_or0 _ _ (holds_Fin m)) as Hmon.
  assert (Hlt : ((Number (Fin m) || 0%Z) <? 0%Z)%num = false).
  { destruct Hmon as (y & -> & Hy). cbn [lt of_Z].
    rewrite Qle_bool_true; [reflexivity|]. change (inject_Z 0) with 0.
    now rewrite Hy. }
  destruct (guard_int n (Fin m) (proj1 Hn) Hlt) as [G E].
  rewrite (b64_useCanjes_unguarded _ _ G). cbn zeta. rewrite E.
  assert (H52 : (2 ^ 52 = 4503599627370496)%Z) by reflexivity.
  rewrite (b64_allocate_int n) by lia. cbn [fst snd aplicativoRows].
  destruct (int_allocation_facts n ltac:(lia)) as (A & B & C & R & _ & S & _).
  cbn zeta in A, B, C, R, S.
  assert (N1 : 1 <= inject_Z n)
    by (change 1 with (inject_Z 1); rewrite <- Zle_Qle; lia).
  assert (Hq0 : 0 <= m / inject_Z n) by (apply Qle_shift_div_l; lra).
  assert (Hqm : m / inject_Z n <= m).
  { apply Qle_shift_div_r; [lra|].
    assert (0 <= m * (inject_Z n - 1)) by (apply Qmult_le_0_compat; lra). lra. }
  assert (Hnq : inject_Z n * (m / inject_Z n) == m) by (field; lra).
  assert (Hu : approx u53 eta
                 (B64.div (Number (Fin m) || 0%Z)%num (of_Z n)) (m / inject_Z n)).
  { apply approx_div_exact;
      [ exact Hmon | apply holds_of_Z | assumption | lra | ].
    destruct pow2_1000 as [P _]. apply Qle_trans with (2 ^ 104); [|exact P].
    apply Qle_trans with 1000000000000; [lra | vm_compute; discriminate]. }
  assert (Hq44 : m / inject_Z n <= 17592186044416)
    by (apply Qle_trans with m; [exact Hqm | lra]).
  assert (R9 : (0 <= ((n mod 50) mod 35) mod 10 <= 9)%Z) by lia.
  destruct (b64_controlTotals_premiosOf _ _ _ _ n _ _ A (proj1 B) (proj1 C)
              R9 S Hn Hu Hq0 Hq44) as [Hp Ha].
  { rewrite Hnq. apply Qle_trans with 1000000000000; [assumption|].
    vm_compute. discriminate. }
  cbn zeta in Hp, Ha. cbn [totales t_planchas t_monto].
  split; [exact Hp|]. split; [|split; reflexivity].
  exact (approx_eq _ _ _ _ m Ha Hnq).
Qed.




(** ** Rounding to two decimals in binary64 *)

Lemma rnd_cases q :
  (exists y, B64.rnd q = Fin y) \/ B64.rnd q = PosInf \/ B64.rnd q = NegInf.
Proof.
  unfold B64.rnd. destruct (Qzero q); [left; eauto|]. cbn zeta.
  destruct (Qle_bool _ _); [right | left; eauto].
  unfold inf. destruct (Qneg q); auto.
Qed.

Lemma b64_div100_cases k :
  (exists y, B64.div (of_Z k) 100%Z = Fin y) \/
  B64.div (of_Z k) 100%Z = PosInf \/ B64.div (of_Z k) 100%Z = NegInf.
Proof.
  unfold B64.div, JS.div, of_Z.
  change (Qzero (inject_Z 100)) with false. cbn iota. unfold B64.b64.
  apply rnd_cases.
Qed.

Lemma approx_or0 rho alpha a x :
  approx rho alpha a x -> approx rho alpha (Number a || 0%Z)%num x.
Proof.
  intros (y & -> & Hy & H).
  destruct (holds_or0 _ _ (holds_Fin y)) as (y' & -> & Hy').
  exists y'. split; [reflexivity|]. now rewrite Hy'.
Qed.

Lemma round2_levels :
  mulRho 0 0 == u53 /\ mulAlpha 0 0 0 0 == eta /\
  mulRho u53 0 <= 3 # 9007199254740992 /\
  mulAlpha u53 eta 0 0 <= 1 # 1000.
Proof.
  split; [unfold mulRho; ring|]. split; [unfold mulAlpha; ring|].
  split; apply Qle_bool_iff; vm_compute; reflexivity.
Qed.

(** [round2] on an amount of at most 10^12: the hundredths [k] it picks and
    the number it returns. *)
Lemma b64_round2_bounded x :
  0 <= x -> x <= 1000000000000 ->
  exists (k : Z) (y : Q),
    (0 <= k <= 100000000000001)%Z /\
    B64.round2 (Fin x) = B64.div (of_Z k) 100%Z /\
    B64.div (of_Z k) 100%Z = Fin y /\
    approx u53 eta (Fin y) (inject_Z k / 100) /\
    Qabs (inject_Z k / 100 - x) <= 52 # 10000 /\
    Qabs (y - x) <= 53 # 10000.
Proof.
  intros Hx0 Hx.
  destruct levels_small as (L0 & Lu & _).
  destruct round2_levels as (E1 & E2 & _).
  pose proof eta_pos as Heta. pose proof eta_small as Heta'.
  assert (HB : 1000000000000 <= Bnd) by (vm_compute; discriminate).
  pose proof (approx_or0 _ _ _ _ (approx_exact _ _ (holds_Fin x) Hx0)) as HX.
  assert (HM : approx (mulRho 0 0) (mulAlpha 0 0 0 0)
                 (B64.mul (Number (Fin x) || 0%Z)%num 100%Z) (x * inject_Z 100)).
  { apply approx_mul; try assumption; try lra;
      first [ apply approx_int; lia | vm_compute; discriminate ]. }
  destruct HM as (z & Ez & Hz0 & Hzx).
  rewrite E1, E2 in Hzx. change (inject_Z 100) with 100 in Hzx.
  unfold u53 in Hzx. apply Qabs_Qle_condition in Hzx.
  set (k := Qfloor (z + (1 # 2))).
  pose proof (Qfloor_le (z + (1 # 2))) as K1.
  pose proof (Qlt_floor (z + (1 # 2))) as K2.
  fold k in K1, K2. rewrite inject_Z_plus in K2. change (inject_Z 1) with 1 in K2.
  assert (K0 : (0 <= k)%Z).
  { change 0%Z with (Qfloor 0). apply Qfloor_resp_le. lra. }
  assert (K14 : (k <= 100000000000001)%Z).
  { rewrite Zle_Qle. change (inject_Z 100000000000001) with 100000000000001. lra. }
  assert (Hc : inject_Z k / 100 * 100 == inject_Z k) by field.
  assert (Hround : B64.round2 (Fin x) = B64.div (of_Z k) 100%Z).
  { unfold B64.round2. rewrite Ez. reflexivity. }
  assert (Hd : approx u53 eta (B64.div (of_Z k) 100%Z) (inject_Z k / 100)).
  { apply (approx_div_exact (of_Z k) (of_Z 100) (inject_Z k) (inject_Z 100));
      try apply holds_of_Z.
    - now apply inject_Z_nonneg.
    - reflexivity.
    - destruct pow2_1000 as [P _]. apply Qle_trans with (2 ^ 104); [|exact P].
      apply Qle_trans with 100000000000001; [|vm_compute; discriminate].
      change (inject_Z 100) with 100. set (c := inject_Z k / 100) in *.
      clearbody c. assert (0 <= inject_Z k) by now apply inject_Z_nonneg.
      lra. }
  destruct Hd as (y & Ey & Hy0 & Hyc).
  exists k, y. rewrite <- Ey at 2.
  split; [lia|]. split; [exact Hround|]. split; [exact Ey|].
  split; [exists y; repeat split; assumption|].
  unfold u53 in Hyc. apply Qabs_Qle_condition in Hyc.
  set (c := inject_Z k / 100) in *. clearbody c.
  split; apply Qabs_Qle_condition; split; lra.
Qed.

(** X2. [round2] in binary64 never returns NaN: NaN becomes 0 and the
    infinities stay.  On an amount between 0 and 10^12 the result is the
    quotient by 100 of a whole number of hundredths that is within 0.0052 of
    the amount, and the result itself is within 0.0053 of the amount. *)
Theorem b64_round2_accuracy (a : number) :
  B64.round2 a <> NaN /\
  (a = NaN -> B64.round2 a = 0%Z) /\
  (a = PosInf -> B64.round2 a = PosInf) /\
  (a = NegInf -> B64.round2 a = NegInf) /\
  (forall x, a = Fin x -> 0 <= x -> x <= 1000000000000 ->
     exists (k : Z) (y : Q),
       B64.round2 a = B64.div (of_Z k) 100%Z /\
       B64.round2 a = Fin y /\
       Qabs (inject_Z k / 100 - x) <= 52 # 10000 /\
       Qabs (y - x) <= 53 # 10000).
Proof.
  split; [|split; [|split; [|split]]].
  - destruct a as [| | |x]; [vm_compute; discriminate .. | ].
    unfold B64.round2.
    assert (C : exists x', (Number (Fin x) || 0%Z)%num = Fin x').
    { destruct (holds_or0 _ _ (holds_Fin x)) as (x' & E & _). now exists x'. }
    destruct C as (x' & ->). unfold B64.mul, JS.mul, of_Z, B64.b64.
    destruct (rnd_cases (Qred (x' * inject_Z 100))) as [(y & ->)|[->| ->]];
      [ | vm_compute; discriminate .. ].
    change (B64.div (of_Z (Qfloor (y + (1 # 2)))) 100%Z <> NaN).
    destruct (b64_div100_cases (Qfloor (y + (1 # 2)))) as [(w & E)|[E|E]];
      rewrite E; discriminate.
  - intros ->. vm_compute. reflexivity.
  - intros ->. vm_compute. reflexivity.
  - intros ->. vm_compute. reflexivity.
  - intros x -> Hx0 Hx.
    destruct (b64_round2_bounded x Hx0 Hx) as (k & y & _ & E1 & E2 & _ & H1 & H2).
    exists k, y. rewrite E1. repeat split; assumption.
Qed.

Lemma b64_round2_accuracy_witness :
  0 <= 2675 # 1000 /\ 2675 # 1000 <= 1000000000000 /\
  exists (k : Z) (y : Q),
    B64.round2 (Fin (2675 # 1000)) = B64.div (of_Z k) 100%Z /\
    B64.round2 (Fin (2675 # 1000)) = Fin y /\
    Qabs (inject_Z k / 100 - (2675 # 1000)) <= 52 # 10000 /\
    Qabs (y - (2675 # 1000)) <= 53 # 10000.
Proof.
  split; [unfold Qle; simpl; lia|]. split; [unfold Qle; simpl; lia|].
  apply (proj2 (proj2 (proj2 (proj2
           (b64_round2_accuracy (Fin (2675 # 1000)))))) (2675 # 1000) eq_refl);
    unfold Qle; simpl; lia.
Defined.

(** X1. In binary64 [round2] is idempotent on every amount between 0 and
    10^12: a value that [round2] returned is kept as it is. *)
Theorem b64_round2_idempotent (x : Q) :
  0 <= x -> x <= 1000000000000 ->
  B64.round2 (B64.round2 (Fin x)) = B64.round2 (Fin x).
Proof.
  intros Hx0 Hx.
  destruct (b64_round2_bounded x Hx0 Hx) as (k & y & Hk & E1 & E2 & Hy & _).
  destruct levels_small as (L0 & Lu & _).
  destruct round2_levels as (_ & _ & R3 & A3).
  rewrite E1, E2.
  assert (K0 : 0 <= inject_Z k) by (apply inject_Z_nonneg; lia).
  assert (K14 : inject_Z k <= 100000000000001).
  { change 100000000000001 with (inject_Z 100000000000001).
    rewrite <- Zle_Qle. lia. }
  assert (Hc : inject_Z k / 100 * 100 == inject_Z k) by field.
  assert (HB : 100000000000001 <= Bnd) by (vm_compute; discriminate).
  assert (HM : approx (mulRho u53 0) (mulAlpha u53 eta 0 0)
                 (B64.mul (Number (Fin y) || 0%Z)%num 100%Z)
                 (inject_Z k / 100 * inject_Z 100)).
  { set (c := inject_Z k / 100) in *. clearbody c.
    apply approx_mul; try assumption; try lra;
      first [ now apply approx_or0 | apply approx_int; lia
            | vm_compute; discriminate ]. }
  destruct HM as (z & Ez & Hz0 & Hzk).
  change (inject_Z 100) with 100 in Hzk. rewrite Hc in Hzk.
  apply Qabs_Qle_condition in Hzk.
  assert (P : 0 <= ((3 # 9007199254740992) - mulRho u53 0) * inject_Z k)
    by (apply Qmult_le_0_compat; lra).
  assert (P' : 0 <= mulRho u53 0 * inject_Z k).
  { apply Qmult_le_0_compat; [|assumption]. vm_compute. discriminate. }
  assert (A0 : 0 <= mulAlpha u53 eta 0 0) by (vm_compute; discriminate).
  set (rho := mulRho u53 0) in *. clearbody rho.
  set (al := mulAlpha u53 eta 0 0) in *. clearbody al.
  assert (Hfl : Qfloor (z + (1 # 2)) = k).
  { apply Qfloor_unique; [lra|].
    rewrite inject_Z_plus. change (inject_Z 1) with 1. lra. }
  unfold B64.round2 at 1. rewrite Ez. cbn [Math_round]. rewrite Hfl.
  rewrite E2. reflexivity.
Qed.

Lemma b64_round2_idempotent_witness :
  0 <= 2675 # 1000 /\ 2675 # 1000 <= 1000000000000 /\
  B64.round2 (B64.round2 (Fin (2675 # 1000))) = B64.round2 (Fin (2675 # 1000)).
Proof.
  split; [unfold Qle; simpl; lia|]. split; [unfold Qle; simpl; lia|].
  apply (b64_round2_idempotent (2675 # 1000)); unfold Qle; simpl; lia.
Defined.

(** Beyond these amounts neither holds: at 2^45 + 1/8 rounding twice differs
    from rounding once, and the largest number of the format is rounded to
    Infinity. *)
Lemma b64_round2_large_amounts :
  let c := Fin (35184372088832 + (1 # 8)) in
  let big := Fin ((2 ^ 53 - 1) * 2 ^ 971) in
  B64.isDouble c = true /\
  B64.round2 c = Fin (4503599627370513 # 128) /\
  B64.round2 (B64.round2 c) = Fin (2251799813685257 # 64) /\
  B64.isDouble big = true /\
  B64.round2 big = PosInf.
Proof. vm_compute. repeat split. Qed.

(** ** The totals the result reports, in binary64 *)

Lemma approx_close rho alpha A x X eps :
  approx rho alpha A x -> 0 <= x -> x <= X -> 0 <= rho ->
  rho * X + alpha <= eps ->
  exists y, A = Fin y /\ 0 <= y /\ Qabs (y - x) <= eps.
Proof.
  intros (y & -> & Hy & H) Hx HX Hrho Heps. exists y. split; [reflexivity|].
  split; [assumption|].
  assert (0 <= rho * (X - x)) by (apply Qmult_le_0_compat; lra).
  apply Qabs_Qle_condition in H. apply Qabs_Qle_condition. split; lra.
Qed.

Lemma b64_div100_int n :
  (0 <= n <= 1000000000000)%Z ->
  B64.div (of_Z (n * 100)) 100%Z = of_Z n.
Proof.
  intros Hn. unfold B64.div, JS.div, of_Z.
  change (Qzero (inject_Z 100)) with false. cbn iota. unfold B64.b64.
  assert (H53 : (2 ^ 53 = 9007199254740992)%Z) by reflexivity.
  apply rnd_int; [|lia].
  rewrite Qred_correct, inject_Z_mult. field.
Qed.

(** [round2] of a sum of quantities that is close to an integer is that
    integer. *)
Lemma b64_round2_near_int S n :
  approx (sumRho termRho) (sumAlpha termAlpha) S (inject_Z n) ->
  (0 <= n <= 1000000000000)%Z ->
  B64.round2 S = of_Z n.
Proof.
  intros HS Hn.
  destruct levels_small as (L0 & _).
  assert (N0 : 0 <= inject_Z n) by (apply inject_Z_nonneg; lia).
  assert (N12 : inject_Z n <= 1000000000000).
  { change 1000000000000 with (inject_Z 1000000000000). rewrite <- Zle_Qle. lia. }
  assert (HB : 1000000000000 <= Bnd) by (vm_compute; discriminate).
  assert (HM : approx (mulRho (sumRho termRho) 0)
                 (mulAlpha (sumRho termRho) (sumAlpha termAlpha) 0 0)
                 (B64.mul (Number S || 0%Z)%num 100%Z)
                 (inject_Z n * inject_Z 100)).
  { apply approx_mul; try assumption; try lra;
      first [ now apply approx_or0 | apply approx_int; lia
            | repeat split; apply Qle_bool_iff; vm_compute; reflexivity
            | vm_compute; discriminate ]. }
  destruct (approx_close _ _ _ _ 100000000000000 (1 # 4) HM)
    as (z & Ez & Hz0 & Hz).
  - change (inject_Z 100) with 100. lra.
  - change (inject_Z 100) with 100. lra.
  - vm_compute. discriminate.
  - apply Qle_bool_iff. vm_compute. reflexivity.
  - change (inject_Z 100) with 100 in Hz. apply Qabs_Qle_condition in Hz.
    assert (Hfl : Qfloor (z + (1 # 2)) = (n * 100)%Z).
    { apply Qfloor_unique.
      - rewrite inject_Z_mult. change (inject_Z 100) with 100. lra.
      - rewrite inject_Z_plus, inject_Z_mult.
        change (inject_Z 100) with 100. change (inject_Z 1) with 1. lra. }
    unfold B64.round2. rewrite Ez. cbn [Math_round]. rewrite Hfl.
    now apply b64_div100_int.
Qed.

(** X11. The control totals the result reports, in binary64.  For every
    integer count with 0 < count <= 10^12 and every amount with
    0 <= amount <= 10^12 - 1, [totales.planchas] is the count itself and
    [totales.monto] is within 0.0073 of the amount, so that both are within
    the 0.01 the display allows. *)
Theorem b64_reported_totals (n : Z) (m : Q) :
  (0 < n <= 1000000000000)%Z -> 0 <= m -> m <= 999999999999 ->
  let r := B64.useCanjes (of_Z n) (Fin m) in
  t_planchas (totales r) = of_Z n /\
  exists y, t_monto (totales r) = Fin y /\ Qabs (y - m) <= 73 # 10000.
Proof.
  intros Hn Hm0 Hm r. subst r.
  destruct (b64_totals_approx n m Hn Hm0 ltac:(lra)) as (Hp & Ha & Ep & Em).
  cbn zeta in Hp, Ha, Ep, Em. rewrite Ep, Em. split.
  - apply b64_round2_near_int; [exact Hp | lia].
  - destruct (approx_close _ _ _ _ 1000000000000 (2 # 1000) Ha)
      as (s & Es & Hs0 & Hs); try lra.
    + vm_compute. discriminate.
    + apply Qle_bool_iff. vm_compute. reflexivity.
    + apply Qabs_Qle_condition in Hs.
      destruct (b64_round2_bounded s Hs0 ltac:(lra))
        as (k & y & _ & E1 & E2 & _ & _ & Hy).
      exists y. rewrite Es, E1, E2. split; [reflexivity|].
      apply Qabs_Qle_condition in Hy. apply Qabs_Qle_condition. split; lra.
Qed.

Lemma b64_reported_totals_witness :
  (0 < 75 <= 1000000000000)%Z /\ 0 <= 7500 /\ 7500 <= 999999999999 /\
  t_planchas (totales (B64.useCanjes 75%Z (Fin 7500))) = 75%Z /\
  exists y, t_monto (totales (B64.useCanjes 75%Z (Fin 7500))) = Fin y /\
            Qabs (y - 7500) <= 73 # 10000.
Proof.
  split; [lia|]. split; [unfold Qle; simpl; lia|].
  split; [unfold Qle; simpl; lia|].
  apply (b64_reported_totals 75 7500); [lia | unfold Qle; simpl; lia ..].
Defined.

(** The reported amount need not be the rounded input: for count 3 and the
    number nearest to 0.105 the reported amount is the number nearest to
    0.1, while [round2] of the input is the number nearest to 0.11. *)
Lemma b64_reported_amount_not_rounded_input :
  let m := B64.rnd (105 # 1000) in
  t_monto (totales (B64.useCanjes 3%Z m)) = B64.rnd (1 # 10) /\
  B64.round2 m = B64.rnd (11 # 100) /\
  B64.rnd (1 # 10) <> B64.rnd (11 # 100).
Proof. vm_compute. repeat split. discriminate. Qed.

(** ** The row that carries the remainder, in binary64 *)

Lemma last_row_pack nm s k r P M :
  tierSize (mkRow nm (of_Z k) P M) = of_Z s ->
  (0 < k <= 2 ^ 44)%Z -> (0 <= s <= 50)%Z -> (0 <= r <= 9)%Z ->
  (s * k + r <= 1000000000000)%Z ->
  P = (if (0 <? r)%Z then B64.add (of_Z s) (B64.div (of_Z r) (of_Z k))
       else of_Z s) ->
  exists (s' k' : Z) (y : Q),
    tierSize (mkRow nm (of_Z k) P M) = of_Z s' /\
    repetir (mkRow nm (of_Z k) P M) = of_Z k' /\ (0 < k')%Z /\
    planchasPorRep (mkRow nm (of_Z k) P M) =
      (if (0 <? r)%Z then B64.add (of_Z s') (B64.div (of_Z r) (of_Z k'))
       else of_Z s') /\
    B64.mul (planchasPorRep (mkRow nm (of_Z k) P M))
            (repetir (mkRow nm (of_Z k) P M)) = Fin y /\
    Qabs (y - inject_Z (s' * k' + r)) <= 1 # 1000.
Proof.
  intros Ht Hk Hs Hr Hn HP. cbn [planchasPorRep repetir].
  assert (HQ : approx qtyRho qtyAlpha P
                 (inject_Z s + inject_Z r / inject_Z k)).
  { rewrite HP. destruct (Z.ltb_spec 0 r) as [Hpos|Hzero].
    - apply qty_anchor; lia.
    - assert (r = 0%Z) by lia. subst r. apply qty_plain; lia. }
  pose proof (row_planks P s k r HQ Hs Hr Hk) as HT.
  pose proof (approx_eq _ _ _ _ (inject_Z (s * k + r)) HT ltac:(ring)) as HT'.
  destruct (approx_close _ _ _ _ 1000000000000 (1 # 1000) HT')
    as (y & Ey & _ & Hy).
  - apply inject_Z_nonneg. nia.
  - change 1000000000000 with (inject_Z 1000000000000). rewrite <- Zle_Qle. lia.
  - vm_compute. discriminate.
  - apply Qle_bool_iff. vm_compute. reflexivity.
  - exists s, k, y. repeat split; try assumption; lia.
Qed.

Lemma b64_anchor_premiosOf a b c r n u :
  (0 <= a)%Z -> (0 <= b)%Z -> (0 <= c)%Z ->
  ~ (a = 0%Z /\ b = 0%Z /\ c = 0%Z) ->
  (0 <= r <= 9)%Z -> (a * 50 + b * 35 + c * 10 + r = n)%Z ->
  (n <= 1000000000000)%Z ->
  let rows := B64.buildRows (of_Z n) u (premiosOf a b c) (of_Z r) in
  let w := last rows (mkRow EmptyString NaN NaN NaN) in
  Forall (fun v => planchasPorRep v = tierSize v) (removelast rows) /\
  exists (s k : Z) (y : Q),
    tierSize w = of_Z s /\ repetir w = of_Z k /\ (0 < k)%Z /\
    planchasPorRep w =
      (if (0 <? r)%Z then B64.add (of_Z s) (B64.div (of_Z r) (of_Z k))
       else of_Z s) /\
    B64.mul (planchasPorRep w) (repetir w) = Fin y /\
    Qabs (y - inject_Z (s * k + r)) <= 1 # 1000.
Proof.
  intros Ha Hb Hc Hnz Hr Hsum Hn rows w. subst w rows.
  rewrite b64_buildRows_premiosOf by assumption.
  assert (H44 : (2 ^ 44 = 17592186044416)%Z) by reflexivity.
  assert (Hrem : (of_Z r >? 0%Z)%num = (0 <? r)%Z).
  { destruct (Z.ltb_spec 0 r) as [Hpos|Hzero].
    - apply (gt0_holds _ _ (holds_of_Z r)). apply inject_Z_pos. lia.
    - assert (r = 0%Z) by lia. subst r. reflexivity. }
  destruct (of_Z r >? 0%Z)%num eqn:Hgt; symmetry in Hrem;
    destruct a as [|a|a], b as [|b|b], c as [|c|c]; try lia;
    try (exfalso; apply Hnz; repeat split; reflexivity);
    cbn [B64.tierRow Z.eqb andb app]; rewrite ?Hgt; cbn [andb last removelast];
    (split; [repeat constructor|]).
  all: lazymatch goal with
       | |- context [mkRow "Escala 3" (of_Z ?k) ?P ?M] =>
           apply (last_row_pack "Escala 3" 50 k r P M)
       | |- context [mkRow "Escala 2" (of_Z ?k) ?P ?M] =>
           apply (last_row_pack "Escala 2" 35 k r P M)
       | |- context [mkRow "Escala 1" (of_Z ?k) ?P ?M] =>
           apply (last_row_pack "Escala 1" 10 k r P M)
       end;
       first [ reflexivity | lia | rewrite Hrem; reflexivity ].
Qed.

(** X12. The remainder goes to the last row only.  For every integer count
    with 10 <= count <= 10^12 and every amount the guard lets through, every
    row but the last has exactly the size of its tier as
    quantity-per-repetition; the last row has the size of its tier when the
    allocation leaves no remainder, and the size plus the quotient of the
    remainder by its repetitions when it does; and its quantity times its
    repetitions, as binary64 computes it, is within 0.001 of size times
    repetitions plus the remainder. *)
Theorem b64_remainder_goes_to_last_row (n : Z) (m : number) :
  (10 <= n <= 1000000000000)%Z -> ((Number m || 0%Z) <? 0%Z)%num = false ->
  let rows := aplicativoRows (B64.useCanjes (of_Z n) m) in
  let w := last rows (mkRow EmptyString NaN NaN NaN) in
  let r := (((n mod 50) mod 35) mod 10)%Z in
  snd (B64.allocate (of_Z n)) = of_Z r /\
  Forall (fun v => planchasPorRep v = tierSize v) (removelast rows) /\
  exists (s k : Z) (y : Q),
    tierSize w = of_Z s /\ repetir w = of_Z k /\ (0 < k)%Z /\
    planchasPorRep w =
      (if (0 <? r)%Z then B64.add (of_Z s) (B64.div (of_Z r) (of_Z k))
       else of_Z s) /\
    B64.mul (planchasPorRep w) (repetir w) = Fin y /\
    Qabs (y - inject_Z (s * k + r)) <= 1 # 1000.
Proof.
  intros Hn Hm rows w r. subst w rows r.
  destruct (guard_int n m ltac:(lia) Hm) as [G E].
  rewrite (b64_useCanjes_unguarded _ _ G). cbn zeta. rewrite E.
  assert (H52 : (2 ^ 52 = 4503599627370496)%Z) by reflexivity.
  rewrite (b64_allocate_int n) by lia. cbn [fst snd aplicativoRows].
  destruct (int_allocation_facts n ltac:(lia)) as (A & B & C & R & _ & S & Z10).
  cbn zeta in A, B, C, R, S, Z10.
  split; [reflexivity|].
  apply (b64_anchor_premiosOf _ _ _ _ n); lia.
Qed.

Lemma b64_remainder_goes_to_last_row_witness :
  (10 <= 957 <= 1000000000000)%Z /\
  ((Number 1000%Z || 0%Z) <? 0%Z)%num = false /\
  let rows := aplicativoRows (B64.useCanjes 957%Z 1000%Z) in
  let w := last rows (mkRow EmptyString NaN NaN NaN) in
  snd (B64.allocate 957%Z) = 7%Z /\
  Forall (fun v => planchasPorRep v = tierSize v) (removelast rows) /\
  exists (s k : Z) (y : Q),
    tierSize w = of_Z s /\ repetir w = of_Z k /\ (0 < k)%Z /\
    planchasPorRep w = B64.add (of_Z s) (B64.div 7%Z (of_Z k)) /\
    B64.mul (planchasPorRep w) (repetir w) = Fin y /\
    Qabs (y - inject_Z (s * k + 7)) <= 1 # 1000.
Proof.
  split; [lia|]. split; [reflexivity|].
  apply (b64_remainder_goes_to_last_row 957 1000%Z); [lia | reflexivity].
Defined.
